(** * tree.hpp: an STL-like tree with DFS and BFS iterators

    A shallow embedding of [src/tree.hpp].

    [node<T>] derives from [std::list<node<T> >]: a node IS the list of its
    children, extended with the payload [data_].  The embedding keeps the two
    parts as the two fields of a constructor.  [T] and its [operator==] are
    parameters of the development; nothing is assumed about [operator==]
    unless a statement says so.

    [size_type] counters are modelled by [nat]: a counter only ever holds a
    number of list elements, which fits the unsigned type, and the single
    subtraction of the source ([size - this->size()]) is taken between a
    length and the length after elements were erased. *)

From Stdlib Require Import String List Arith Lia Bool Permutation Sorted.
Import ListNotations.

Set Implicit Arguments.
Set Warnings "-register-all".

(** ** The node *)

Section Node.

Variable T : Type.

(** [T]'s [operator==]. *)
Variable T_eq : T -> T -> bool.

(** [class node : public std::list<node<T> >], with member [data_]. *)
Inductive node : Type :=
  Node (data_ : T) (children : list node).

(** [const_data()] / [data()]. *)
Definition const_data (n : node) : T :=
  match n with Node d _ => d end.

(** The [std::list] base sub-object. *)
Definition children (n : node) : list node :=
  match n with Node _ cs => cs end.

(** [node(const value_type& data)]: a childless node.  The constructor is not
    [explicit], so it is also the implicit conversion from [T] to [node]. *)
Definition node_of_value (data : T) : node := Node data [].

(** [node(const node& other) : container_type(other), data_(other.data_)]:
    the list copy constructor copies every element with this same
    constructor, so the copy is deep. *)
Fixpoint node_copy (other : node) : node :=
  match other with
  | Node d cs => Node d (map node_copy cs)
  end.

(** Member [bool operator==(const node_type& other)]. *)
Definition node_eq (this other : node) : bool :=
  T_eq (const_data this) (const_data other).

(** Member [bool operator==(const value_type& value)]. *)
Definition node_eq_value (this : node) (value : T) : bool :=
  T_eq (const_data this) value.

(** Free [operator==(const node<T>& a, const node<T>& b)]. *)
Definition op_eq (a b : node) : bool :=
  T_eq (const_data a) (const_data b).

(** Number of nodes of the subtree rooted at a node. *)
Fixpoint node_count (n : node) : nat :=
  match n with
  | Node _ cs => S (list_sum (map node_count cs))
  end.

(** All nodes strictly below a node, in pre-order. *)
Fixpoint descendants (n : node) : list node :=
  match n with
  | Node _ cs => flat_map (fun c => c :: descendants c) cs
  end.

(** ** [std::list::remove] and [remove_recursive] *)

(** [std::list<node>::remove(const node& value)]: erases every element [e]
    with [e == value]; the elements are non-const, so the comparison is the
    member [operator==(const node_type&)]. *)
Fixpoint list_remove (value : node) (l : list node) : list node :=
  match l with
  | [] => []
  | e :: l' =>
      if node_eq e value then list_remove value l'
      else e :: list_remove value l'
  end.

(** [size_type remove_recursive(const value_type& data)].  The node is
    mutated in place: the function returns the node after the call together
    with the returned count.  [data] is a reference; it is taken to refer to
    an object outside of the subtree, which the call does not destroy.  The inner [loop] is the [while] loop over the
    children, threading [many]. *)
Fixpoint remove_recursive (data : T) (this : node) : node * nat :=
  match this with
  | Node d cs =>
      let '(cs1, many) :=
        (fix loop (l : list node) (many : nat) {struct l} : list node * nat :=
           match l with
           | [] => ([], many)
           | c :: l' =>
               let '(c', k) := remove_recursive data c in
               let '(l'', many') := loop l' (many + k) in
               (c' :: l'', many')
           end) cs 0 in
      let size := length cs1 in
      let cs2 := list_remove (node_of_value data) cs1 in
      (Node d cs2, many + (size - length cs2))
  end.

(** ** Pointers to nodes

    The iterators hold [node_type*].  While an iterator is in use the tree is
    not modified, so a pointer is modelled by the address of the node (the
    path of child positions leading to it from the object the iteration
    started at) together with the node found there.  Pointer comparison
    compares addresses; the null pointer is [None]. *)

Record node_ptr : Type := { addr : list nat; pointee : node }.

(** A pointer to an object that is the starting point of its own address
    space ([this] in [dfs_begin], [bfs_begin], [contains_recursive]). *)
Definition root_ptr (n : node) : node_ptr := {| addr := []; pointee := n |}.

(** [&*it] for the list elements [l], the first of which has position [i]
    in the list owned by the node at address [a]. *)
Fixpoint element_ptrs (a : list nat) (i : nat) (l : list node)
  : list node_ptr :=
  match l with
  | [] => []
  | c :: l' => {| addr := a ++ [i]; pointee := c |} :: element_ptrs a (S i) l'
  end.

(** [&*it] for [it] running from [n->begin()] to [n->end()]. *)
Definition child_ptrs (n : node_ptr) : list node_ptr :=
  element_ptrs (addr n) 0 (children (pointee n)).

(** Comparison of two [node_type*] values that are null or point into the
    same object, the one the addresses start from; this is the comparison of
    an iterator with an end iterator or with another iterator over the same
    tree.  Pointers into two different objects are outside of this model. *)
Definition ptr_eqb (p q : option node_ptr) : bool :=
  match p, q with
  | None, None => true
  | Some x, Some y =>
      if list_eq_dec Nat.eq_dec (addr x) (addr y) then true else false
  | _, _ => false
  end.

(** The result of [operator*]: a reference, or undefined behaviour
    ([top()] / [front()] of an empty container). *)
Inductive deref : Type :=
| Ref (p : node_ptr)
| Undefined.

(** ** [dfs_iterator] *)

(** [std::stack<node_type*> stack_], the top of the stack first. *)
Record dfs_iterator : Type := { stack_ : list node_ptr }.

(** [explicit dfs_iterator(node_type& root)]: [stack_.push(&root)]. *)
Definition dfs_iterator_at (root : node_ptr) : dfs_iterator :=
  {| stack_ := root :: [] |}.

(** [dfs_iterator()]. *)
Definition dfs_iterator_default : dfs_iterator := {| stack_ := [] |}.

(** [dfs_iterator& operator++()].  The [while] loop runs [it] from
    [n->rbegin()] to [n->rend()], pushing [&*it]. *)
Definition dfs_incr (it : dfs_iterator) : dfs_iterator :=
  match stack_ it with
  | [] => it
  | n :: popped =>
      {| stack_ := fold_left (fun st c => c :: st) (rev (child_ptrs n)) popped |}
  end.

(** [node_type* operator->() const]. *)
Definition dfs_arrow (it : dfs_iterator) : option node_ptr :=
  match stack_ it with
  | top :: _ => Some top
  | [] => None
  end.

(** [node_type& operator*() const]: [*stack_.top()], unguarded. *)
Definition dfs_star (it : dfs_iterator) : deref :=
  match stack_ it with
  | top :: _ => Ref top
  | [] => Undefined
  end.

(** [bool operator!=(const dfs_iterator& other) const]. *)
Definition dfs_ne (it other : dfs_iterator) : bool :=
  negb (ptr_eqb (dfs_arrow it) (dfs_arrow other)).

(** [bool operator==(const dfs_iterator& other) const]. *)
Definition dfs_eq (it other : dfs_iterator) : bool :=
  negb (dfs_ne it other).

(** [dfs_begin()] on the node [this] points to. *)
Definition dfs_begin (this : node_ptr) : dfs_iterator := dfs_iterator_at this.

(** [dfs_end()]. *)
Definition dfs_end : dfs_iterator := dfs_iterator_default.

(** ** [bfs_iterator] *)

(** [std::queue<node_type*> queue_], the front of the queue first. *)
Record bfs_iterator : Type := { queue_ : list node_ptr }.

(** [explicit bfs_iterator(const node_type& root)]: [queue_.push(&root)]. *)
Definition bfs_iterator_at (root : node_ptr) : bfs_iterator :=
  {| queue_ := [] ++ [root] |}.

(** [bfs_iterator()]. *)
Definition bfs_iterator_default : bfs_iterator := {| queue_ := [] |}.

(** [bfs_iterator& operator++()].  The [while] loop runs [it] from
    [n->begin()] to [n->end()], pushing [&*it] at the back. *)
Definition bfs_incr (it : bfs_iterator) : bfs_iterator :=
  match queue_ it with
  | [] => it
  | n :: popped =>
      {| queue_ := fold_left (fun q c => q ++ [c]) (child_ptrs n) popped |}
  end.

(** [node_type* operator->() const]. *)
Definition bfs_arrow (it : bfs_iterator) : option node_ptr :=
  match queue_ it with
  | front :: _ => Some front
  | [] => None
  end.

(** [node_type& operator*() const]: [*queue_.front()], unguarded. *)
Definition bfs_star (it : bfs_iterator) : deref :=
  match queue_ it with
  | front :: _ => Ref front
  | [] => Undefined
  end.

(** [bool operator!=(const bfs_iterator& other) const]. *)
Definition bfs_ne (it other : bfs_iterator) : bool :=
  negb (ptr_eqb (bfs_arrow it) (bfs_arrow other)).

(** [bool operator==(const bfs_iterator& other) const]. *)
Definition bfs_eq (it other : bfs_iterator) : bool :=
  negb (bfs_ne it other).

(** [bfs_begin()] on the node [this] points to. *)
Definition bfs_begin (this : node_ptr) : bfs_iterator := bfs_iterator_at this.

(** [bfs_end()]. *)
Definition bfs_end : bfs_iterator := bfs_iterator_default.

(** ** Loops over iterator ranges

    The loops below need not terminate syntactically, so they carry a bound
    [fuel] on the number of iterations; [None] means that the bound was
    reached (or that an undefined dereference happened) before the loop
    ended. *)

(** [for (it = first; it != last; ++it)] dereferencing [it] in the body:
    the references obtained, in order. *)
Fixpoint dfs_range (fuel : nat) (first last : dfs_iterator)
  : option (list node_ptr) :=
  match fuel with
  | 0 => None
  | S fuel' =>
      if dfs_ne first last then
        match dfs_star first with
        | Ref p =>
            match dfs_range fuel' (dfs_incr first) last with
            | Some visited => Some (p :: visited)
            | None => None
            end
        | Undefined => None
        end
      else Some []
  end.

Fixpoint bfs_range (fuel : nat) (first last : bfs_iterator)
  : option (list node_ptr) :=
  match fuel with
  | 0 => None
  | S fuel' =>
      if bfs_ne first last then
        match bfs_star first with
        | Ref p =>
            match bfs_range fuel' (bfs_incr first) last with
            | Some visited => Some (p :: visited)
            | None => None
            end
        | Undefined => None
        end
      else Some []
  end.

(** [std::find(first, last, value)] over [bfs_iterator]s:
    advance [first] while it differs from [last] and the node it refers to
    does not compare equal to [value]; return [first].  The dereferenced
    iterator is a non-const [node&], compared with the member
    [operator==(const value_type&)]. *)
Fixpoint bfs_find (fuel : nat) (first last : bfs_iterator) (value : T)
  : option bfs_iterator :=
  match fuel with
  | 0 => None
  | S fuel' =>
      if bfs_ne first last then
        match bfs_star first with
        | Ref p =>
            if node_eq_value (pointee p) value then Some first
            else bfs_find fuel' (bfs_incr first) last value
        | Undefined => None
        end
      else Some first
  end.

(** ** [contains_recursive]

    [bool contains(const value_type& data) const] has no embedding: it is a
    const member, so its [std::find] compares a [const node] with a
    [const T], and no [operator==] of the source takes that pair of operands
    (the two member operators are not const, the free one compares two
    nodes).  The member cannot be instantiated and returns nothing. *)

(** [bool contains_recursive(const value_type& data) const]:
    [std::find(bfs_begin(), bfs_end(), data) != bfs_end()]. *)
Definition contains_recursive (fuel : nat) (this : node) (data : T)
  : option bool :=
  match bfs_find fuel (bfs_begin (root_ptr this)) bfs_end data with
  | Some found => Some (bfs_ne found bfs_end)
  | None => None
  end.

(** ** [operator>>] *)

(** [std::list::push_back(const node& x)]: the new element is
    copy-constructed from [x]. *)
Definition push_back (l : list node) (x : node) : list node :=
  l ++ [node_copy x].

(** [std::list::back()] of the list [l] owned by the node at address [a],
    as a pointer; [i] is the position of the first element of [l].
    Undefined ([None]) on an empty list. *)
Fixpoint back (a : list nat) (i : nat) (l : list node) : option node_ptr :=
  match l with
  | [] => None
  | x :: [] => Some {| addr := a ++ [i]; pointee := x |}
  | _ :: l' => back a (S i) l'
  end.

(** What a call of [operator>>] does to its first argument: the node after
    the call and the returned reference. *)
Record shifted : Type :=
  { parent_after : node; returned : option node_ptr }.

(** [node<T>& operator>>(node<T>& a, node<T>& b)]:
    [a.push_back(b); return a.back();].  [b] is the node the second argument
    refers to when the call is made.  What becomes of that argument is a
    matter of where it lies with respect to [a]: see [shift_node_at]. *)
Definition shift_node (a : node_ptr) (b : node) : shifted :=
  let a' := Node (const_data (pointee a)) (push_back (children (pointee a)) b) in
  {| parent_after := a';
     returned := back (addr a) 0 (children a') |}.

(** [node<T>& operator>>(node<T>& a, const T& b)]: the same statements; [b]
    is first converted to a temporary node. *)
Definition shift_value (a : node_ptr) (b : T) : node * option node_ptr :=
  let a' := Node (const_data (pointee a))
                 (push_back (children (pointee a)) (node_of_value b)) in
  (a', back (addr a) 0 (children a')).

(** ** Calls through a reference into a tree

    [operator>>] returns a reference to a child of its first argument, and
    that reference can be the first argument of the next call
    ([root >> x >> y]).  Such a call changes, in place, a node that is part
    of a larger object.  The larger object is the store; the reference is an
    address in it. *)

(** The node at address [a] of the object [root]; [None] when there is no
    such node. *)
Fixpoint load (root : node) (a : list nat) : option node :=
  match a with
  | [] => Some root
  | i :: a' =>
      match nth_error (children root) i with
      | Some c => load c a'
      | None => None
      end
  end.

(** The object [root] after the node at address [a] has become [n']. *)
Fixpoint store (root : node) (a : list nat) (n' : node) : option node :=
  match a with
  | [] => Some n'
  | i :: a' =>
      match nth_error (children root) i with
      | Some c =>
          match store c a' n' with
          | Some c' =>
              Some (Node (const_data root)
                      (firstn i (children root)
                       ++ c' :: skipn (S i) (children root)))
          | None => None
          end
      | None => None
      end
  end.

(** [operator>>(a, b)] with [a] the node at address [a] of [root]: the object
    after the call and the returned reference. *)
Definition shift_value_at (root : node) (a : list nat) (b : T)
  : option (node * option node_ptr) :=
  match load root a with
  | Some n =>
      let '(n', ret) := shift_value {| addr := a; pointee := n |} b in
      match store root a n' with
      | Some root' => Some (root', ret)
      | None => None
      end
  | None => None
  end.

(** [operator>>(a, b)] with [a] and [b] the nodes at the addresses [a] and
    [b] of [root]: the object after the call and the returned reference.
    Both arguments are references, and they may refer to the same node or to
    nodes one inside the other; [root] is the object that holds both (for
    two separate objects, the memory that holds the two, seen as a node with
    the objects as children).  The node [b] refers to after the call is the
    one then found at address [b]. *)
Definition shift_node_at (root : node) (a b : list nat)
  : option (node * option node_ptr) :=
  match load root a, load root b with
  | Some na, Some nb =>
      let r := shift_node {| addr := a; pointee := na |} nb in
      match store root a (parent_after r) with
      | Some root' => Some (root', returned r)
      | None => None
      end
  | _, _ => None
  end.

(** [tree(const value_type& data) : base_type(data)]. *)
Definition tree (data : T) : node := node_of_value data.

(** ** Reference orders and counts, for the statements *)

(** Left-to-right pre-order of the subtree of [n], which lives at address
    [a]: the node, then the pre-orders of its children in order. *)
Fixpoint preorder_at (a : list nat) (n : node) {struct n} : list node_ptr :=
  match n with
  | Node _ cs =>
      {| addr := a; pointee := n |} ::
      (fix elems (i : nat) (l : list node) {struct l} : list node_ptr :=
         match l with
         | [] => []
         | c :: l' => preorder_at (a ++ [i]) c ++ elems (S i) l'
         end) 0 cs
  end.

Definition preorder (p : node_ptr) : list node_ptr :=
  preorder_at (addr p) (pointee p).

(** Number of levels of a subtree. *)
Fixpoint height (n : node) : nat :=
  match n with
  | Node _ cs => S (list_max (map height cs))
  end.

(** The nodes [k] levels below the nodes [ps], left to right. *)
Fixpoint generation (k : nat) (ps : list node_ptr) : list node_ptr :=
  match k with
  | 0 => ps
  | S k' => generation k' (flat_map child_ptrs ps)
  end.

(** Level order: the root, then its children, then their children, ... *)
Definition level_order (p : node_ptr) : list node_ptr :=
  flat_map (fun k => generation k [p]) (seq 0 (height (pointee p))).

(** Number of nodes, and of levels, of the subtrees a list of pointers
    refers to. *)
Definition forest_count (ps : list node_ptr) : nat :=
  list_sum (map (fun p => node_count (pointee p)) ps).

Definition forest_height (ps : list node_ptr) : nat :=
  list_max (map (fun p => height (pointee p)) ps).

(** The nodes of a subtree, and of the subtrees a list of pointers refers
    to. *)
Definition subtree (n : node) : list node := n :: descendants n.

Definition forest_nodes (ps : list node_ptr) : list node :=
  flat_map (fun p => subtree (pointee p)) ps.

(** Whether a node holds [value], as [remove] and [find] test it. *)
Definition holds (value : T) (n : node) : bool := T_eq (const_data n) value.

(** Number of nodes strictly below [n] that hold [value]. *)
Definition occurrences_below (value : T) (n : node) : nat :=
  length (filter (holds value) (descendants n)).

(** The tree obtained from [n] by cutting off every subtree whose root is
    strictly below [n] and holds [value]. *)
Fixpoint prune (value : T) (n : node) : node :=
  match n with
  | Node d cs =>
      Node d (flat_map
                (fun c => if holds value c then [] else [prune value c]) cs)
  end.

(** Depths (the root has depth [depth]) of the nodes of the subtree of [n]
    that hold [value]. *)
Fixpoint depths_of (value : T) (depth : nat) (n : node) {struct n}
  : list nat :=
  match n with
  | Node _ cs =>
      (if holds value n then [depth] else []) ++
      flat_map (fun c => depths_of value (S depth) c) cs
  end.

(** Whether [value] is held at two different depths of the subtree of [n]. *)
Definition at_two_depths (value : T) (n : node) : bool :=
  let ds := depths_of value 0 n in
  existsb (fun d1 => existsb (fun d2 => negb (d1 =? d2)) ds) ds.

(** [l1] is [l2] with some elements left out, the others in their order. *)
Inductive subsequence : list T -> list T -> Prop :=
| subsequence_nil : subsequence [] []
| subsequence_skip (x : T) (l1 l2 : list T) :
    subsequence l1 l2 -> subsequence l1 (x :: l2)
| subsequence_keep (x : T) (l1 l2 : list T) :
    subsequence l1 l2 -> subsequence (x :: l1) (x :: l2).

(** The values of the nodes of a subtree, in pre-order. *)
Definition subtree_values (n : node) : list T :=
  map const_data (subtree n).

(** The depth of the node a pointer refers to, below the start of its
    address space. *)
Definition depth (p : node_ptr) : nat := length (addr p).

End Node.

(** ** Concrete trees over strings *)

Module Sample.

Local Open Scope string_scope.

Definition snode : Type := node string.

Definition leaf (s : string) : snode := Node s [].

(** Root [A] with children [B, C]; [B] has child [D], [C] has child [E]. *)
Definition abcde : snode :=
  Node "A" [Node "B" [leaf "D"]; Node "C" [leaf "E"]].

(** [X] once as a child and once as a grandchild of the root [R]. *)
Definition x_twice_below : snode :=
  Node "R" [leaf "X"; Node "B" [leaf "X"; leaf "Y"]].

(** [X] at the root and at one child. *)
Definition x_at_root : snode :=
  Node "X" [leaf "X"; leaf "Y"].

(** A holder of [X] that has a child holding something else. *)
Definition x_with_child : snode :=
  Node "R" [Node "X" [leaf "Y"]].

(** Two separate objects, [A] and [B[D]], in the memory [M] that holds
    them. *)
Definition two_objects : snode :=
  Node "M" [leaf "A"; Node "B" [leaf "D"]].

(** The values of a sequence of visited nodes. *)
Definition values (ps : option (list (node_ptr string))) : option (list string) :=
  option_map (map (fun p => const_data (pointee p))) ps.

End Sample.

(** ** Facts about nodes and recursive removal *)

Section NodeFacts.

Variable T : Type.
Variable T_eq : T -> T -> bool.

(** Induction over a node and, simultaneously, over its list of children. *)
Lemma node_forall_ind (P : node T -> Prop) :
  (forall d cs, Forall P cs -> P (Node d cs)) ->
  forall n, P n.
Proof.
  intros step.
  fix IH 1.
  intros [d cs]. apply step.
  induction cs as [|c cs IHcs]; constructor.
  - apply IH.
  - exact IHcs.
Qed.

Lemma node_count_pos (n : node T) : 0 < node_count n.
Proof. destruct n; simpl; lia. Qed.

(** The copy constructor yields a node equal to the one copied. *)
Lemma node_copy_id (n : node T) : node_copy n = n.
Proof.
  induction n as [d cs IH] using node_forall_ind. simpl. f_equal.
  induction IH as [|c cs Hc _ IHcs]; simpl; [reflexivity|].
  now rewrite Hc, IHcs.
Qed.

(** [remove] keeps exactly the elements that do not hold the value. *)
Lemma list_remove_filter (v : T) (l : list (node T)) :
  list_remove T_eq (node_of_value v) l
  = filter (fun e => negb (holds T_eq v e)) l.
Proof.
  induction l as [|e l IH]; simpl; [reflexivity|].
  unfold node_eq, holds; simpl.
  destruct (T_eq (const_data e) v); simpl; now rewrite IH.
Qed.

Lemma list_remove_length (v : T) (l : list (node T)) :
  length (list_remove T_eq (node_of_value v) l)
  + length (filter (holds T_eq v) l)
  = length l.
Proof.
  rewrite list_remove_filter.
  induction l as [|e l IH]; simpl; [reflexivity|].
  destruct (holds T_eq v e); simpl; lia.
Qed.

(** The [while] loop of [remove_recursive] calls [remove_recursive] on
    every child in turn and adds up the counts. *)
Lemma remove_recursive_unfold (v : T) (d : T) (cs : list (node T)) :
  remove_recursive T_eq v (Node d cs) =
  let rs := map (remove_recursive T_eq v) cs in
  let cs1 := map fst rs in
  let cs2 := list_remove T_eq (node_of_value v) cs1 in
  (Node d cs2, list_sum (map snd rs) + (length cs1 - length cs2)).
Proof.
  cbv zeta. simpl.
  match goal with
  | |- (let '(_, _) := ?loop cs 0 in _) = _ =>
      assert (Hloop : forall l many,
                 loop l many =
                 (map fst (map (remove_recursive T_eq v) l),
                  many + list_sum (map snd (map (remove_recursive T_eq v) l))))
  end.
  { induction l as [|c l IH]; intros many; simpl.
    - f_equal. lia.
    - destruct (remove_recursive T_eq v c) as [c' k] eqn:Hc.
      rewrite IH. simpl. f_equal. lia. }
  rewrite Hloop. reflexivity.
Qed.

Lemma remove_recursive_data (v : T) (n : node T) :
  const_data (fst (remove_recursive T_eq v n)) = const_data n.
Proof. destruct n as [d cs]. rewrite remove_recursive_unfold. reflexivity. Qed.

Lemma prune_data (v : T) (n : node T) :
  const_data (prune T_eq v n) = const_data n.
Proof. destruct n; reflexivity. Qed.

Lemma holds_prune (v : T) (n : node T) :
  holds T_eq v (prune T_eq v n) = holds T_eq v n.
Proof. unfold holds. now rewrite prune_data. Qed.

(** The node left by [remove_recursive] is the pruned tree. *)
Lemma remove_recursive_prune (v : T) (n : node T) :
  fst (remove_recursive T_eq v n) = prune T_eq v n.
Proof.
  induction n as [d cs IH] using node_forall_ind.
  rewrite remove_recursive_unfold. cbv zeta. simpl fst. simpl prune. f_equal.
  rewrite list_remove_filter, map_map.
  induction IH as [|c cs Hc _ IHcs]; simpl; [reflexivity|].
  rewrite Hc, holds_prune.
  destruct (holds T_eq v c); simpl; now rewrite IHcs.
Qed.

Lemma occurrences_below_unfold (v : T) (d : T) (cs : list (node T)) :
  occurrences_below T_eq v (Node d cs) =
  length (filter (holds T_eq v) cs)
  + list_sum (map (occurrences_below T_eq v) cs).
Proof.
  unfold occurrences_below. simpl descendants.
  induction cs as [|c cs IH]; [reflexivity|].
  cbn [flat_map filter map list_sum app].
  destruct (holds T_eq v c); cbn [length];
    rewrite filter_app, length_app, IH; simpl list_sum; lia.
Qed.

(** The count returned by [remove_recursive] is the number of nodes
    strictly below the node that hold the value. *)
Lemma remove_recursive_count (v : T) (n : node T) :
  snd (remove_recursive T_eq v n) = occurrences_below T_eq v n.
Proof.
  induction n as [d cs IH] using node_forall_ind.
  rewrite remove_recursive_unfold, occurrences_below_unfold. cbv zeta. simpl snd.
  pose proof (list_remove_length v (map fst (map (remove_recursive T_eq v) cs)))
    as Hlen.
  assert (Hholds :
            length (filter (holds T_eq v)
                      (map fst (map (remove_recursive T_eq v) cs)))
            = length (filter (holds T_eq v) cs)).
  { clear. induction cs as [|c cs IH]; simpl; [reflexivity|].
    rewrite remove_recursive_prune, holds_prune.
    destruct (holds T_eq v c); simpl; now rewrite IH. }
  assert (Hsum : list_sum (map snd (map (remove_recursive T_eq v) cs))
                 = list_sum (map (occurrences_below T_eq v) cs)).
  { clear Hlen Hholds.
    induction IH as [|c cs Hc _ IHcs]; simpl; [reflexivity|].
    now rewrite Hc, IHcs. }
  rewrite Hsum. lia.
Qed.

(** After pruning, nothing strictly below the node holds the value. *)
Lemma prune_clean (v : T) (n : node T) :
  Forall (fun m => holds T_eq v m = false) (descendants (prune T_eq v n)).
Proof.
  induction n as [d cs IH] using node_forall_ind. simpl.
  induction IH as [|c cs Hc _ IHcs]; simpl; [constructor|].
  destruct (holds T_eq v c) eqn:Hv; simpl; [exact IHcs|].
  constructor.
  - now rewrite holds_prune.
  - apply Forall_app. split; assumption.
Qed.

(** Pruning a value that does not occur below the node changes nothing. *)
Lemma prune_absent (v : T) (n : node T) :
  occurrences_below T_eq v n = 0 -> prune T_eq v n = n.
Proof.
  induction n as [d cs IH] using node_forall_ind.
  rewrite occurrences_below_unfold. intros H0. simpl. f_equal.
  induction IH as [|c cs Hc _ IHcs]; simpl in *; [reflexivity|].
  destruct (holds T_eq v c); simpl in H0; [lia|].
  rewrite Hc by lia. rewrite IHcs by lia. reflexivity.
Qed.

Lemma occurrences_below_absent (v : T) (n : node T) :
  occurrences_below T_eq v n = 0 <->
  Forall (fun m => holds T_eq v m = false) (descendants n).
Proof.
  unfold occurrences_below.
  induction (descendants n) as [|m l IH]; simpl.
  - split; [constructor | reflexivity].
  - destruct (holds T_eq v m) eqn:Hm; simpl.
    + split; [discriminate | intros H; inversion H; congruence].
    + rewrite IH. split; [now constructor | intros H; now inversion H].
Qed.

(** The children left by [remove_recursive]: the children that do not hold
    the value, each after its own recursive removal. *)
Lemma remove_recursive_children (v : T) (n : node T) :
  children (fst (remove_recursive T_eq v n)) =
  map (fun c => fst (remove_recursive T_eq v c))
      (filter (fun c => negb (holds T_eq v c)) (children n)).
Proof.
  destruct n as [d cs]. rewrite remove_recursive_unfold. cbv zeta. simpl.
  rewrite list_remove_filter, map_map.
  induction cs as [|c cs IH]; simpl; [reflexivity|].
  rewrite remove_recursive_prune, holds_prune.
  destruct (holds T_eq v c); simpl; rewrite IH; [reflexivity|].
  now rewrite remove_recursive_prune.
Qed.

(** Every node counted by [remove_recursive] has gone, and possibly more:
    [node_count] drops by at least the returned count. *)
Lemma prune_node_count (v : T) (n : node T) :
  node_count (prune T_eq v n) + occurrences_below T_eq v n <= node_count n.
Proof.
  induction n as [d cs IH] using node_forall_ind.
  rewrite occurrences_below_unfold. simpl.
  induction IH as [|c cs Hc _ IHcs]; simpl; [lia|].
  pose proof (node_count_pos (prune T_eq v c)) as Hpos.
  destruct (holds T_eq v c); simpl; lia.
Qed.

End NodeFacts.

(** ** Facts about the iterators *)

Section IteratorFacts.

Variable T : Type.

Lemma option_map_id (A : Type) (o : option A) : option_map (fun x => x) o = o.
Proof. destruct o; reflexivity. Qed.

Lemma option_map_comp (A B C : Type) (f : A -> B) (g : B -> C) (o : option A) :
  option_map g (option_map f o) = option_map (fun x => g (f x)) o.
Proof. destruct o; reflexivity. Qed.

Lemma option_map_ext (A B : Type) (f g : A -> B) (o : option A) :
  (forall x, f x = g x) -> option_map f o = option_map g o.
Proof. intros H. destruct o; simpl; [now rewrite H | reflexivity]. Qed.

Lemma pointee_element_ptrs (a : list nat) (i : nat) (l : list (node T)) :
  map (@pointee T) (element_ptrs a i l) = l.
Proof.
  revert i. induction l as [|c l IH]; intros i; simpl; [reflexivity|].
  now rewrite IH.
Qed.

Lemma forest_count_app (ps qs : list (node_ptr T)) :
  forest_count (ps ++ qs) = forest_count ps + forest_count qs.
Proof. unfold forest_count. now rewrite map_app, list_sum_app. Qed.

Lemma forest_count_children (p : node_ptr T) :
  S (forest_count (child_ptrs p)) = node_count (pointee p).
Proof.
  unfold forest_count, child_ptrs.
  rewrite <- (map_map (@pointee T) (@node_count T)), pointee_element_ptrs.
  destruct (pointee p); reflexivity.
Qed.

(** The push loops of the two [operator++]. *)
Lemma push_reversed (l st : list (node_ptr T)) :
  fold_left (fun st c => c :: st) (rev l) st = l ++ st.
Proof.
  revert st. induction l as [|c l IH]; intros st; simpl; [reflexivity|].
  now rewrite fold_left_app, IH.
Qed.

Lemma push_in_order (l q : list (node_ptr T)) :
  fold_left (fun q c => q ++ [c]) l q = q ++ l.
Proof.
  revert q. induction l as [|c l IH]; intros q; simpl.
  - now rewrite app_nil_r.
  - now rewrite IH, <- app_assoc.
Qed.

(** [operator++] on a non-exhausted DFS iterator: the top is replaced by its
    children, the leftmost child on top. *)
Lemma dfs_incr_cons (n : node_ptr T) (st : list (node_ptr T)) :
  dfs_incr {| stack_ := n :: st |} = {| stack_ := child_ptrs n ++ st |}.
Proof. unfold dfs_incr. simpl. now rewrite push_reversed. Qed.

(** [operator++] on a non-exhausted BFS iterator: the front leaves and its
    children join the back, in order. *)
Lemma bfs_incr_cons (n : node_ptr T) (q : list (node_ptr T)) :
  bfs_incr {| queue_ := n :: q |} = {| queue_ := q ++ child_ptrs n |}.
Proof. unfold bfs_incr. simpl. now rewrite push_in_order. Qed.

(** An iterator differs from the end iterator exactly when its container is
    not empty. *)
Lemma dfs_ne_end (it : dfs_iterator T) :
  dfs_ne it (dfs_end T) = match stack_ it with [] => false | _ => true end.
Proof. destruct it as [[|p st]]; reflexivity. Qed.

Lemma bfs_ne_end (it : bfs_iterator T) :
  bfs_ne it (bfs_end T) = match queue_ it with [] => false | _ => true end.
Proof. destruct it as [[|p q]]; reflexivity. Qed.

(** One iteration of the range loops. *)
Lemma dfs_range_nil (fuel : nat) :
  dfs_range (S fuel) {| stack_ := [] |} (dfs_end T) = Some [].
Proof. reflexivity. Qed.

Lemma dfs_range_cons (fuel : nat) (p : node_ptr T) (st : list (node_ptr T)) :
  dfs_range (S fuel) {| stack_ := p :: st |} (dfs_end T) =
  option_map (cons p)
    (dfs_range fuel {| stack_ := child_ptrs p ++ st |} (dfs_end T)).
Proof.
  cbn [dfs_range]. rewrite dfs_ne_end, dfs_incr_cons. simpl.
  destruct (dfs_range fuel _ _); reflexivity.
Qed.

Lemma bfs_range_nil (fuel : nat) :
  bfs_range (S fuel) {| queue_ := [] |} (bfs_end T) = Some [].
Proof. reflexivity. Qed.

Lemma bfs_range_cons (fuel : nat) (p : node_ptr T) (q : list (node_ptr T)) :
  bfs_range (S fuel) {| queue_ := p :: q |} (bfs_end T) =
  option_map (cons p)
    (bfs_range fuel {| queue_ := q ++ child_ptrs p |} (bfs_end T)).
Proof.
  cbn [bfs_range]. rewrite bfs_ne_end, bfs_incr_cons. simpl.
  destruct (bfs_range fuel _ _); reflexivity.
Qed.

(** *** Depth first: pre-order *)

Lemma preorder_at_unfold (a : list nat) (d : T) (cs : list (node T)) :
  preorder_at a (Node d cs) =
  {| addr := a; pointee := Node d cs |}
    :: flat_map (@preorder T) (element_ptrs a 0 cs).
Proof.
  simpl. f_equal. generalize 0.
  induction cs as [|c cs IH]; intros i; simpl; [reflexivity|].
  now rewrite IH.
Qed.

(** Running the loop with the subtree of [n] on top of the stack visits that
    subtree in pre-order and carries on with the rest of the stack. *)
Lemma dfs_range_subtree (n : node T) :
  forall (a : list nat) (st : list (node_ptr T)) (fuel : nat),
    dfs_range (fuel + node_count n)
      {| stack_ := {| addr := a; pointee := n |} :: st |} (dfs_end T) =
    option_map (app (preorder_at a n))
      (dfs_range fuel {| stack_ := st |} (dfs_end T)).
Proof.
  induction n as [d cs IH] using node_forall_ind. intros a st fuel.
  rewrite preorder_at_unfold.
  cbn [node_count]. rewrite Nat.add_succ_r, dfs_range_cons.
  unfold child_ptrs. cbn [addr pointee children].
  transitivity
    (option_map (cons {| addr := a; pointee := Node d cs |})
       (option_map (app (flat_map (@preorder T) (element_ptrs a 0 cs)))
          (dfs_range fuel {| stack_ := st |} (dfs_end T))));
    [|rewrite option_map_comp; now apply option_map_ext].
  f_equal.
  generalize 0 as i. revert fuel.
  induction IH as [|c cs Hc _ IHcs]; intros fuel i;
    cbn [element_ptrs map flat_map app].
  - cbn [list_sum fold_right]. rewrite Nat.add_0_r. symmetry. apply option_map_id.
  - replace (fuel + list_sum (node_count c :: map (@node_count T) cs))
      with ((fuel + list_sum (map (@node_count T) cs)) + node_count c)
      by (simpl list_sum; lia).
    rewrite Hc, IHcs, option_map_comp.
    apply option_map_ext. intros l. unfold preorder at 2. cbn [addr pointee].
    now rewrite app_assoc.
Qed.

(** The nodes met in pre-order: the node, then the nodes below it. *)
Lemma preorder_nodes (n : node T) :
  forall a, map (@pointee T) (preorder_at a n) = subtree n.
Proof.
  induction n as [d cs IH] using node_forall_ind. intros a.
  rewrite preorder_at_unfold. unfold subtree. cbn [map pointee descendants].
  f_equal. generalize 0 as i.
  induction IH as [|c cs Hc _ IHcs]; intros i; cbn [element_ptrs flat_map];
    [reflexivity|].
  rewrite map_app, IHcs. unfold preorder. cbn [addr pointee].
  now rewrite Hc.
Qed.

(** The loop from [dfs_begin] to [dfs_end] ends and visits the subtree in
    pre-order. *)
Lemma dfs_range_preorder (p : node_ptr T) (fuel : nat) :
  node_count (pointee p) < fuel ->
  dfs_range fuel (dfs_begin p) (dfs_end T) = Some (preorder p).
Proof.
  intros Hfuel.
  replace fuel with (S (fuel - S (node_count (pointee p))) + node_count (pointee p))
    by lia.
  destruct p as [a n]. unfold dfs_begin, dfs_iterator_at.
  rewrite dfs_range_subtree, dfs_range_nil. simpl.
  now rewrite app_nil_r.
Qed.

(** *** Breadth first: level order *)

Lemma forest_count_next (ps : list (node_ptr T)) :
  length ps + forest_count (flat_map (@child_ptrs T) ps) = forest_count ps.
Proof.
  induction ps as [|p ps IH]; [reflexivity|].
  cbn [flat_map length]. rewrite forest_count_app.
  change (forest_count (p :: ps))
    with (node_count (pointee p) + forest_count ps).
  rewrite <- (forest_count_children p). lia.
Qed.

Lemma forest_height_app (ps qs : list (node_ptr T)) :
  forest_height (ps ++ qs) = Nat.max (forest_height ps) (forest_height qs).
Proof. unfold forest_height. now rewrite map_app, list_max_app. Qed.

Lemma forest_height_children (p : node_ptr T) :
  S (forest_height (child_ptrs p)) = height (pointee p).
Proof.
  unfold forest_height, child_ptrs.
  rewrite <- (map_map (@pointee T) (@height T)), pointee_element_ptrs.
  destruct (pointee p); reflexivity.
Qed.

Lemma forest_height_next (ps : list (node_ptr T)) (h : nat) :
  forest_height ps <= S h -> forest_height (flat_map (@child_ptrs T) ps) <= h.
Proof.
  induction ps as [|p ps IH]; [unfold forest_height; simpl; lia|].
  change (forest_height (p :: ps))
    with (Nat.max (height (pointee p)) (forest_height ps)).
  cbn [flat_map]. rewrite forest_height_app, <- (forest_height_children p).
  intros H. assert (forest_height ps <= S h) as Hps by lia.
  apply IH in Hps. lia.
Qed.

Lemma forest_height_0 (ps : list (node_ptr T)) :
  forest_height ps <= 0 -> ps = [].
Proof.
  destruct ps as [|p ps]; [reflexivity|].
  change (forest_height (p :: ps))
    with (Nat.max (height (pointee p)) (forest_height ps)).
  rewrite <- (forest_height_children p). lia.
Qed.

(** Working through the level [ps] at the front of the queue visits [ps] and
    leaves the children of [ps] behind whatever was queued after it. *)
Lemma bfs_range_level (ps : list (node_ptr T)) :
  forall (us : list (node_ptr T)) (fuel : nat),
    bfs_range (fuel + length ps) {| queue_ := ps ++ us |} (bfs_end T) =
    option_map (app ps)
      (bfs_range fuel {| queue_ := us ++ flat_map (@child_ptrs T) ps |}
         (bfs_end T)).
Proof.
  induction ps as [|p ps IH]; intros us fuel; cbn [length flat_map app].
  - rewrite Nat.add_0_r, app_nil_r. symmetry. apply option_map_id.
  - rewrite Nat.add_succ_r, bfs_range_cons, <- app_assoc, IH.
    rewrite option_map_comp, <- app_assoc. reflexivity.
Qed.

(** The first [h] generations below [ps], one after the other. *)
Lemma levels_unfold (ps : list (node_ptr T)) (h : nat) :
  flat_map (fun k => generation k ps) (seq 0 (S h)) =
  ps ++ flat_map (fun k => generation k (flat_map (@child_ptrs T) ps)) (seq 0 h).
Proof.
  cbn [seq flat_map generation]. f_equal.
  rewrite <- seq_shift, flat_map_concat_map, map_map, <- flat_map_concat_map.
  reflexivity.
Qed.

Lemma bfs_range_levels (h : nat) :
  forall (ps : list (node_ptr T)) (fuel : nat),
    forest_height ps <= h ->
    forest_count ps < fuel ->
    bfs_range fuel {| queue_ := ps |} (bfs_end T) =
    Some (flat_map (fun k => generation k ps) (seq 0 h)).
Proof.
  induction h as [|h IH]; intros ps fuel Hh Hfuel.
  - apply forest_height_0 in Hh. subst ps.
    destruct fuel; [lia | reflexivity].
  - pose proof (forest_count_next ps) as Hcount.
    pose proof (bfs_range_level ps [] (fuel - length ps)) as Hlevel.
    rewrite app_nil_r in Hlevel. cbn [app] in Hlevel.
    replace (fuel - length ps + length ps) with fuel in Hlevel by lia.
    rewrite Hlevel, IH; [|now apply forest_height_next|lia].
    simpl option_map. now rewrite levels_unfold.
Qed.

(** The loop from [bfs_begin] to [bfs_end] ends and visits the subtree in
    level order. *)
Lemma bfs_range_level_order (p : node_ptr T) (fuel : nat) :
  node_count (pointee p) < fuel ->
  bfs_range fuel (bfs_begin p) (bfs_end T) = Some (level_order p).
Proof.
  intros Hfuel. unfold bfs_begin, bfs_iterator_at, level_order. cbn [app].
  apply bfs_range_levels.
  - unfold forest_height. simpl. lia.
  - unfold forest_count. simpl. lia.
Qed.

(** *** Advancing step by step *)

Lemma dfs_incr_exhausted (k : nat) :
  Nat.iter k (@dfs_incr T) {| stack_ := [] |} = {| stack_ := [] |}.
Proof. induction k as [|k IH]; simpl; [reflexivity | now rewrite IH]. Qed.

Lemma bfs_incr_exhausted (k : nat) :
  Nat.iter k (@bfs_incr T) {| queue_ := [] |} = {| queue_ := [] |}.
Proof. induction k as [|k IH]; simpl; [reflexivity | now rewrite IH]. Qed.

(** After [k] advances the iterator points to the [k]-th node the loop
    visits, and to nothing once all of them are behind it. *)
Lemma dfs_range_steps (fuel : nat) :
  forall (st : list (node_ptr T)) (l : list (node_ptr T)),
    dfs_range fuel {| stack_ := st |} (dfs_end T) = Some l ->
    forall k, dfs_arrow (Nat.iter k (@dfs_incr T) {| stack_ := st |})
              = nth_error l k.
Proof.
  induction fuel as [|fuel IH]; intros st l Hl k; [discriminate|].
  destruct st as [|p st].
  - rewrite dfs_range_nil in Hl. injection Hl as <-.
    rewrite dfs_incr_exhausted. now destruct k.
  - rewrite dfs_range_cons in Hl.
    destruct (dfs_range fuel _ _) as [l'|] eqn:Hl'; [|discriminate].
    injection Hl as <-.
    destruct k as [|k]; [reflexivity|].
    rewrite Nat.iter_succ_r, dfs_incr_cons. cbn [nth_error].
    now apply IH.
Qed.

Lemma bfs_range_steps (fuel : nat) :
  forall (q : list (node_ptr T)) (l : list (node_ptr T)),
    bfs_range fuel {| queue_ := q |} (bfs_end T) = Some l ->
    forall k, bfs_arrow (Nat.iter k (@bfs_incr T) {| queue_ := q |})
              = nth_error l k.
Proof.
  induction fuel as [|fuel IH]; intros q l Hl k; [discriminate|].
  destruct q as [|p q].
  - rewrite bfs_range_nil in Hl. injection Hl as <-.
    rewrite bfs_incr_exhausted. now destruct k.
  - rewrite bfs_range_cons in Hl.
    destruct (bfs_range fuel _ _) as [l'|] eqn:Hl'; [|discriminate].
    injection Hl as <-.
    destruct k as [|k]; [reflexivity|].
    rewrite Nat.iter_succ_r, bfs_incr_cons. cbn [nth_error].
    now apply IH.
Qed.

(** The loops visit as many nodes as the subtrees in the container have. *)
Lemma dfs_range_length (fuel : nat) :
  forall (st : list (node_ptr T)) (l : list (node_ptr T)),
    dfs_range fuel {| stack_ := st |} (dfs_end T) = Some l ->
    length l = forest_count st.
Proof.
  induction fuel as [|fuel IH]; intros st l Hl; [discriminate|].
  destruct st as [|p st].
  - rewrite dfs_range_nil in Hl. now injection Hl as <-.
  - rewrite dfs_range_cons in Hl.
    destruct (dfs_range fuel _ _) as [l'|] eqn:Hl'; [|discriminate].
    injection Hl as <-. apply IH in Hl'.
    rewrite forest_count_app in Hl'.
    change (forest_count (p :: st))
      with (node_count (pointee p) + forest_count st).
    rewrite <- (forest_count_children p). simpl. lia.
Qed.

Lemma bfs_range_length (fuel : nat) :
  forall (q : list (node_ptr T)) (l : list (node_ptr T)),
    bfs_range fuel {| queue_ := q |} (bfs_end T) = Some l ->
    length l = forest_count q.
Proof.
  induction fuel as [|fuel IH]; intros q l Hl; [discriminate|].
  destruct q as [|p q].
  - rewrite bfs_range_nil in Hl. now injection Hl as <-.
  - rewrite bfs_range_cons in Hl.
    destruct (bfs_range fuel _ _) as [l'|] eqn:Hl'; [|discriminate].
    injection Hl as <-. apply IH in Hl'.
    rewrite forest_count_app in Hl'.
    change (forest_count (p :: q))
      with (node_count (pointee p) + forest_count q).
    rewrite <- (forest_count_children p). simpl. lia.
Qed.

(** Equality with the end iterator is emptiness of [operator->]. *)
Lemma dfs_eq_end (it : dfs_iterator T) :
  dfs_eq it (dfs_end T) = match dfs_arrow it with None => true | _ => false end.
Proof. destruct it as [[|p st]]; reflexivity. Qed.

Lemma bfs_eq_end (it : bfs_iterator T) :
  bfs_eq it (bfs_end T) = match bfs_arrow it with None => true | _ => false end.
Proof. destruct it as [[|p q]]; reflexivity. Qed.

(** *** Searching *)

Variable T_eq : T -> T -> bool.

Lemma forest_nodes_app (ps qs : list (node_ptr T)) :
  forest_nodes (ps ++ qs) = forest_nodes ps ++ forest_nodes qs.
Proof. unfold forest_nodes. apply flat_map_app. Qed.

Lemma forest_nodes_children (p : node_ptr T) :
  forest_nodes (child_ptrs p) = descendants (pointee p).
Proof.
  unfold forest_nodes, child_ptrs.
  rewrite flat_map_concat_map.
  rewrite <- (map_map (@pointee T) (@subtree T)), pointee_element_ptrs.
  rewrite <- flat_map_concat_map.
  destruct (pointee p); reflexivity.
Qed.

(** [std::find] over the BFS range ends, and stops short of the end exactly
    when some node of the queued subtrees holds the value. *)
Lemma bfs_find_found (v : T) (fuel : nat) :
  forall q : list (node_ptr T),
    forest_count q < fuel ->
    exists it,
      bfs_find T_eq fuel {| queue_ := q |} (bfs_end T) v = Some it /\
      bfs_ne it (bfs_end T) = existsb (holds T_eq v) (forest_nodes q).
Proof.
  induction fuel as [|fuel IH]; intros q Hfuel; [lia|].
  destruct q as [|p q].
  - exists {| queue_ := [] |}. split; reflexivity.
  - cbn [bfs_find]. rewrite bfs_ne_end. cbn [queue_ bfs_star].
    unfold node_eq_value.
    change (forest_nodes (p :: q))
      with ((pointee p :: descendants (pointee p)) ++ forest_nodes q).
    cbn [app existsb]. unfold holds at 1.
    destruct (T_eq (const_data (pointee p)) v) eqn:Hv.
    + exists {| queue_ := p :: q |}. split; reflexivity.
    + rewrite bfs_incr_cons.
      destruct (IH (q ++ child_ptrs p)) as [it [Hfind Hne]].
      { rewrite forest_count_app.
        change (forest_count (p :: q))
          with (node_count (pointee p) + forest_count q) in Hfuel.
        rewrite <- (forest_count_children p) in Hfuel. lia. }
      exists it. split; [exact Hfind|].
      rewrite Hne, forest_nodes_app, forest_nodes_children, !existsb_app.
      cbn [orb]. apply orb_comm.
Qed.

Lemma contains_recursive_existsb (v : T) (n : node T) (fuel : nat) :
  node_count n < fuel ->
  contains_recursive T_eq fuel n v = Some (existsb (holds T_eq v) (subtree n)).
Proof.
  intros Hfuel. unfold contains_recursive, bfs_begin, bfs_iterator_at.
  cbn [app].
  destruct (@bfs_find_found v fuel [root_ptr n]) as [it [Hfind Hne]].
  { unfold forest_count. simpl. lia. }
  rewrite Hfind, Hne. unfold forest_nodes. simpl. now rewrite app_nil_r.
Qed.

End IteratorFacts.

(** ** Recursive removal *)

(** C1. [remove_recursive(v)] on a node [n] first calls itself on every child
    and then removes the direct children that hold [v]; [n] itself stays;
    what is left is [n] with every subtree cut off whose root lies below [n]
    and holds [v], so that no node at any depth below [n] holds [v] any more;
    the returned count is the number of nodes below [n] that held [v]; and if
    [v] occurs nowhere in the subtree, the call returns 0 and leaves the
    subtree as it was. *)
Theorem remove_recursive_removes_all (T : Type) (T_eq : T -> T -> bool)
    (v : T) (n : node T) :
  let after := fst (remove_recursive T_eq v n) in
  let count := snd (remove_recursive T_eq v n) in
  remove_recursive T_eq v n =
    (let rs := map (remove_recursive T_eq v) (children n) in
     let cs1 := map fst rs in
     let cs2 := list_remove T_eq (node_of_value v) cs1 in
     (Node (const_data n) cs2,
      list_sum (map snd rs) + (length cs1 - length cs2)))
  /\ const_data after = const_data n
  /\ after = prune T_eq v n
  /\ Forall (fun m => holds T_eq v m = false) (descendants after)
  /\ count = occurrences_below T_eq v n
  /\ (Forall (fun m => holds T_eq v m = false) (subtree n) ->
      remove_recursive T_eq v n = (n, 0)).
Proof.
  cbv zeta. repeat split.
  - destruct n as [d cs]. apply remove_recursive_unfold.
  - apply remove_recursive_data.
  - apply remove_recursive_prune.
  - rewrite remove_recursive_prune. apply prune_clean.
  - apply remove_recursive_count.
  - intros Habsent. unfold subtree in Habsent.
    apply Forall_inv_tail, occurrences_below_absent in Habsent.
    rewrite (surjective_pairing (remove_recursive T_eq v n)).
    rewrite remove_recursive_prune, remove_recursive_count, Habsent.
    now rewrite prune_absent.
Qed.

Lemma remove_recursive_removes_all_witness :
  remove_recursive String.eqb "Z"%string Sample.abcde = (Sample.abcde, 0).
Proof.
  apply (remove_recursive_removes_all String.eqb "Z"%string Sample.abcde).
  vm_compute. repeat constructor.
Defined.

(** C10. A direct child that holds the value goes with its whole subtree:
    the children left are the children that do not hold the value (each after
    its own recursive removal).  The returned count is the number of nodes
    below the node that held the value, whereas the number of nodes that
    ceased to exist, the drop of [node_count], can be larger: removing [X]
    from [R[X[Y]]] returns 1, and two nodes are gone. *)
Theorem remove_recursive_counts_holders_only :
  (forall (T : Type) (T_eq : T -> T -> bool) (v : T) (n : node T),
      let after := fst (remove_recursive T_eq v n) in
      let count := snd (remove_recursive T_eq v n) in
      children after =
        map (fun c => fst (remove_recursive T_eq v c))
            (filter (fun c => negb (holds T_eq v c)) (children n))
      /\ count = occurrences_below T_eq v n
      /\ count <= node_count n - node_count after)
  /\ (let r := remove_recursive String.eqb "X"%string Sample.x_with_child in
      snd r = 1 /\ node_count Sample.x_with_child - node_count (fst r) = 2).
Proof.
  split.
  - intros T T_eq v n. cbv zeta. repeat split.
    + apply remove_recursive_children.
    + apply remove_recursive_count.
    + pose proof (prune_node_count T_eq v n) as Hcount.
      rewrite remove_recursive_prune, remove_recursive_count. lia.
  - vm_compute. split; reflexivity.
Qed.

(** The claim C6 as it is worded fails when one of the two depths is that of
    the root: in [X[X, Y]] the value [X] is held at depths 0 and 1, yet
    [remove_recursive(X)] returns 1 and [contains_recursive(X)] still
    answers true afterwards, because the root is never removed. *)
Lemma remove_recursive_root_holder :
  ~ (at_two_depths String.eqb "X"%string Sample.x_at_root = true ->
     snd (remove_recursive String.eqb "X"%string Sample.x_at_root) = 2
     /\ contains_recursive String.eqb 4
          (fst (remove_recursive String.eqb "X"%string Sample.x_at_root))
          "X"%string = Some false).
Proof.
  intros H. destruct (H eq_refl) as [Hcount _].
  vm_compute in Hcount. discriminate.
Qed.

(** C6, amended.  When the root of a subtree does not hold [X] and exactly two
    nodes below it hold [X] (at two different depths or not),
    [remove_recursive(X)] returns 2 and afterwards [contains_recursive(X)] on
    the subtree ends with the answer false. *)
Theorem remove_recursive_two_below (T : Type) (T_eq : T -> T -> bool)
    (x : T) (n : node T) (fuel : nat) :
  holds T_eq x n = false ->
  occurrences_below T_eq x n = 2 ->
  node_count (fst (remove_recursive T_eq x n)) < fuel ->
  snd (remove_recursive T_eq x n) = 2
  /\ contains_recursive T_eq fuel (fst (remove_recursive T_eq x n)) x
     = Some false.
Proof.
  intros Hroot Htwo Hfuel. split.
  - now rewrite remove_recursive_count.
  - rewrite contains_recursive_existsb by exact Hfuel.
    f_equal. unfold subtree. cbn [existsb].
    rewrite remove_recursive_prune, holds_prune, Hroot. cbn [orb].
    pose proof (prune_clean T_eq x n) as Hclean.
    induction Hclean as [|m l Hm _ IH]; simpl; [reflexivity|].
    now rewrite Hm.
Qed.

Lemma remove_recursive_two_below_witness :
  at_two_depths String.eqb "X"%string Sample.x_twice_below = true
  /\ snd (remove_recursive String.eqb "X"%string Sample.x_twice_below) = 2
  /\ contains_recursive String.eqb 4
       (fst (remove_recursive String.eqb "X"%string Sample.x_twice_below))
       "X"%string = Some false.
Proof.
  split; [reflexivity|].
  apply (remove_recursive_two_below String.eqb "X"%string
           Sample.x_twice_below (fuel := 4)).
  - reflexivity.
  - reflexivity.
  - vm_compute. lia.
Defined.

(** ** Containment *)

(** C5, the part on [contains_recursive]: [contains_recursive(v)] ends and is
    true exactly when the node itself or one of its descendants, at any
    depth, holds [v].  For the root [A] of [A[B[D], C[E]]], no direct child
    of which holds [D], [contains_recursive(D)] is true.  (The other part of
    the claim is about [contains], which cannot be instantiated.) *)
Theorem contains_recursive_finds_node_or_descendant :
  (forall (T : Type) (T_eq : T -> T -> bool) (n : node T) (v : T)
          (fuel : nat),
      node_count n < fuel ->
      exists b,
        contains_recursive T_eq fuel n v = Some b /\
        (b = true <->
         exists m, In m (n :: descendants n)
                   /\ T_eq (const_data m) v = true))
  /\ Forall (fun c => String.eqb (const_data c) "D"%string = false)
       (children Sample.abcde)
  /\ (forall fuel, 5 < fuel ->
        contains_recursive String.eqb fuel Sample.abcde "D"%string
        = Some true).
Proof.
  repeat split.
  - intros T T_eq n v fuel Hfuel.
    exists (existsb (holds T_eq v) (subtree n)). split.
    + now apply contains_recursive_existsb.
    + apply existsb_exists.
  - repeat constructor.
  - intros fuel Hfuel.
    rewrite contains_recursive_existsb by (simpl; lia). reflexivity.
Qed.

Lemma contains_recursive_finds_node_or_descendant_witness :
  exists b,
    contains_recursive String.eqb 6 Sample.abcde "E"%string = Some b /\
    (b = true <->
     exists m, In m (Sample.abcde :: descendants Sample.abcde)
               /\ String.eqb (const_data m) "E"%string = true).
Proof.
  apply (proj1 contains_recursive_finds_node_or_descendant).
  vm_compute. lia.
Defined.

(** ** Traversal orders *)

(** C2. The iterator of [dfs_begin] dereferences to the root first; an
    advance pops the top node and pushes its children in reverse order, which
    leaves the leftmost child on top; the loop from [dfs_begin] to [dfs_end]
    ends and visits the nodes of the subtree in left-to-right pre-order, the
    node after [k] advances being the [k]-th of that order.  For
    [A[B[D], C[E]]] the visit order is A, B, D, C, E. *)
Theorem dfs_visits_in_preorder :
  (forall (T : Type) (p : node_ptr T),
      dfs_arrow (dfs_begin p) = Some p /\ dfs_star (dfs_begin p) = Ref p)
  /\ (forall (T : Type) (n : node_ptr T) (st : list (node_ptr T)),
         dfs_incr {| stack_ := n :: st |}
         = {| stack_ := fold_left (fun s c => c :: s) (rev (child_ptrs n)) st |}
         /\ fold_left (fun s c => c :: s) (rev (child_ptrs n)) st
            = child_ptrs n ++ st)
  /\ (forall (T : Type) (p : node_ptr T) (fuel : nat),
         node_count (pointee p) < fuel ->
         dfs_range fuel (dfs_begin p) (dfs_end T) = Some (preorder p))
  /\ (forall (T : Type) (p : node_ptr T) (k : nat),
         dfs_arrow (Nat.iter k (@dfs_incr T) (dfs_begin p))
         = nth_error (preorder p) k)
  /\ (forall (T : Type) (p : node_ptr T),
         map (@pointee T) (preorder p)
         = pointee p :: descendants (pointee p))
  /\ (forall fuel, 5 < fuel ->
        Sample.values
          (dfs_range fuel (dfs_begin (root_ptr Sample.abcde)) (dfs_end string))
        = Some ["A"; "B"; "D"; "C"; "E"]%string).
Proof.
  repeat split.
  - apply push_reversed.
  - now apply dfs_range_preorder.
  - intros T p k.
    apply dfs_range_steps with (fuel := S (node_count (pointee p))).
    apply dfs_range_preorder. lia.
  - intros T p. apply preorder_nodes.
  - intros fuel Hfuel.
    rewrite dfs_range_preorder by (simpl; lia). reflexivity.
Qed.

Lemma dfs_visits_in_preorder_witness :
  dfs_range 4 (dfs_begin (root_ptr Sample.x_at_root)) (dfs_end string)
  = Some (preorder (root_ptr Sample.x_at_root)).
Proof.
  apply (proj1 (proj2 (proj2 dfs_visits_in_preorder))).
  vm_compute. lia.
Defined.

(** C3. The iterator of [bfs_begin] dereferences to the root first; an
    advance pops the front node and enqueues its children in their
    left-to-right order; the loop from [bfs_begin] to [bfs_end] ends and
    visits the nodes of the subtree in level order, the node after [k]
    advances being the [k]-th of that order.  For [A[B[D], C[E]]] the visit
    order is A, B, C, D, E. *)
Theorem bfs_visits_in_level_order :
  (forall (T : Type) (p : node_ptr T),
      bfs_arrow (bfs_begin p) = Some p /\ bfs_star (bfs_begin p) = Ref p)
  /\ (forall (T : Type) (n : node_ptr T) (q : list (node_ptr T)),
         bfs_incr {| queue_ := n :: q |}
         = {| queue_ := fold_left (fun s c => s ++ [c]) (child_ptrs n) q |}
         /\ fold_left (fun s c => s ++ [c]) (child_ptrs n) q
            = q ++ child_ptrs n)
  /\ (forall (T : Type) (p : node_ptr T) (fuel : nat),
         node_count (pointee p) < fuel ->
         bfs_range fuel (bfs_begin p) (bfs_end T) = Some (level_order p))
  /\ (forall (T : Type) (p : node_ptr T) (k : nat),
         bfs_arrow (Nat.iter k (@bfs_incr T) (bfs_begin p))
         = nth_error (level_order p) k)
  /\ (forall fuel, 5 < fuel ->
        Sample.values
          (bfs_range fuel (bfs_begin (root_ptr Sample.abcde)) (bfs_end string))
        = Some ["A"; "B"; "C"; "D"; "E"]%string).
Proof.
  repeat split.
  - apply push_in_order.
  - now apply bfs_range_level_order.
  - intros T p k.
    apply bfs_range_steps with (fuel := S (node_count (pointee p))).
    apply bfs_range_level_order. lia.
  - intros fuel Hfuel.
    rewrite bfs_range_level_order by (simpl; lia). reflexivity.
Qed.

Lemma bfs_visits_in_level_order_witness :
  bfs_range 4 (bfs_begin (root_ptr Sample.x_at_root)) (bfs_end string)
  = Some (level_order (root_ptr Sample.x_at_root)).
Proof.
  apply (proj1 (proj2 (proj2 bfs_visits_in_level_order))).
  vm_compute. lia.
Defined.

(** C9. Advancing the iterator of [dfs_begin] or [bfs_begin] of a subtree
    with [N] nodes [N] times, and not fewer, makes it equal to the end
    iterator; advancing an end iterator leaves it an end iterator. *)
Theorem iterators_end_after_node_count (T : Type) (p : node_ptr T) :
  let N := node_count (pointee p) in
  dfs_eq (Nat.iter N (@dfs_incr T) (dfs_begin p)) (dfs_end T) = true
  /\ (forall k, k < N ->
        dfs_eq (Nat.iter k (@dfs_incr T) (dfs_begin p)) (dfs_end T) = false)
  /\ bfs_eq (Nat.iter N (@bfs_incr T) (bfs_begin p)) (bfs_end T) = true
  /\ (forall k, k < N ->
        bfs_eq (Nat.iter k (@bfs_incr T) (bfs_begin p)) (bfs_end T) = false)
  /\ dfs_incr (dfs_end T) = dfs_end T
  /\ dfs_eq (dfs_incr (dfs_end T)) (dfs_end T) = true
  /\ bfs_incr (bfs_end T) = bfs_end T
  /\ bfs_eq (bfs_incr (bfs_end T)) (bfs_end T) = true.
Proof.
  cbv zeta.
  pose proof (@dfs_range_preorder T p (S (node_count (pointee p))) (Nat.lt_succ_diag_r _))
    as Hdfs.
  pose proof (@bfs_range_level_order T p (S (node_count (pointee p))) (Nat.lt_succ_diag_r _))
    as Hbfs.
  pose proof (dfs_range_length _ _ Hdfs) as Hdlen.
  pose proof (bfs_range_length _ _ Hbfs) as Hblen.
  pose proof (dfs_range_steps _ _ Hdfs) as Hdstep.
  pose proof (bfs_range_steps _ _ Hbfs) as Hbstep.
  unfold forest_count in Hdlen, Hblen. simpl in Hdlen, Hblen.
  rewrite Nat.add_0_r in Hdlen, Hblen.
  unfold dfs_begin, dfs_iterator_at, bfs_begin, bfs_iterator_at. cbn [app].
  repeat split.
  - rewrite dfs_eq_end, Hdstep.
    rewrite (proj2 (nth_error_None _ _)); [reflexivity | lia].
  - intros k Hk. rewrite dfs_eq_end, Hdstep.
    destruct (nth_error (preorder p) k) eqn:Hnth; [reflexivity|].
    apply nth_error_None in Hnth. lia.
  - rewrite bfs_eq_end, Hbstep.
    rewrite (proj2 (nth_error_None _ _)); [reflexivity | lia].
  - intros k Hk. rewrite bfs_eq_end, Hbstep.
    destruct (nth_error (level_order p) k) eqn:Hnth; [reflexivity|].
    apply nth_error_None in Hnth. lia.
Qed.

Lemma iterators_end_after_node_count_witness :
  dfs_eq (Nat.iter 4 (@dfs_incr string) (dfs_begin (root_ptr Sample.abcde)))
    (dfs_end string) = false.
Proof.
  apply (proj1 (proj2 (iterators_end_after_node_count (root_ptr Sample.abcde)))).
  vm_compute. lia.
Defined.

(** ** Equality of nodes *)

(** C4. [a == b], through the free operator as through the member operator,
    is the comparison of the two values: it holds exactly when [a]'s value
    equals [b]'s value.  The children take no part in it: replacing the
    children of either node does not change the answer, and two nodes with
    the same value and any two lists of children compare equal. *)
Theorem node_equality_is_value_equality (T : Type) (T_eq : T -> T -> bool)
    (a b : node T) :
  op_eq T_eq a b = T_eq (const_data a) (const_data b)
  /\ node_eq T_eq a b = T_eq (const_data a) (const_data b)
  /\ (forall cs1 cs2 : list (node T),
         op_eq T_eq (Node (const_data a) cs1) (Node (const_data b) cs2)
         = op_eq T_eq a b
         /\ node_eq T_eq (Node (const_data a) cs1) (Node (const_data b) cs2)
            = node_eq T_eq a b)
  /\ ((forall x y : T, T_eq x y = true <-> x = y) ->
      (op_eq T_eq a b = true <-> const_data a = const_data b)
      /\ (node_eq T_eq a b = true <-> const_data a = const_data b)
      /\ (forall (v : T) (cs1 cs2 : list (node T)),
             op_eq T_eq (Node v cs1) (Node v cs2) = true
             /\ node_eq T_eq (Node v cs1) (Node v cs2) = true)).
Proof.
  repeat split; try (intros H0; apply H; exact H0);
    unfold op_eq, node_eq; simpl; now apply H.
Qed.

Lemma node_equality_is_value_equality_witness :
  op_eq String.eqb Sample.abcde (Sample.leaf "A"%string) = true
  <-> const_data Sample.abcde = const_data (Sample.leaf "A"%string).
Proof.
  apply (proj2 (proj2 (proj2
           (node_equality_is_value_equality String.eqb
              Sample.abcde (Sample.leaf "A"%string))))).
  exact String.eqb_eq.
Defined.

(** ** Dereferencing an exhausted iterator *)

(** The claim C8 as it is worded fails for [operator*]: on an exhausted
    iterator it takes [top()] (or [front()]) of an empty container, which has
    no defined result. *)
Lemma star_of_end_iterator_undefined :
  ~ (dfs_arrow (dfs_end string) = None
     /\ dfs_star (dfs_end string) <> Undefined string
     /\ bfs_arrow (bfs_end string) = None
     /\ bfs_star (bfs_end string) <> Undefined string).
Proof. intros (_ & Hstar & _). apply Hstar. reflexivity. Qed.

(** C8, amended.  On an exhausted DFS or BFS iterator [operator->] returns
    the null pointer, and an iterator is equal to the end iterator exactly
    when its [operator->] returns the null pointer: the null result is the
    end-of-sequence state.  [operator*] has a result exactly on the iterators
    that are not exhausted, where it is the node [operator->] points to. *)
Theorem arrow_of_exhausted_iterator_is_null (T : Type)
    (dit : dfs_iterator T) (bit : bfs_iterator T) :
  (stack_ dit = [] -> dfs_arrow dit = None)
  /\ (queue_ bit = [] -> bfs_arrow bit = None)
  /\ (dfs_eq dit (dfs_end T) = true <-> dfs_arrow dit = None)
  /\ (bfs_eq bit (bfs_end T) = true <-> bfs_arrow bit = None)
  /\ (dfs_arrow dit = None <-> stack_ dit = [])
  /\ (bfs_arrow bit = None <-> queue_ bit = [])
  /\ (forall p, dfs_star dit = Ref p <-> dfs_arrow dit = Some p)
  /\ (forall p, bfs_star bit = Ref p <-> bfs_arrow bit = Some p)
  /\ (dfs_star dit = Undefined T <-> stack_ dit = [])
  /\ (bfs_star bit = Undefined T <-> queue_ bit = []).
Proof.
  rewrite dfs_eq_end, bfs_eq_end.
  unfold dfs_arrow, bfs_arrow, dfs_star, bfs_star.
  destruct dit as [[|p st]], bit as [[|p' q]]; simpl;
    repeat split; intros; congruence.
Qed.

Lemma arrow_of_exhausted_iterator_is_null_witness :
  dfs_arrow (dfs_end string) = None /\ bfs_arrow (bfs_end string) = None.
Proof.
  split.
  - apply (proj1 (arrow_of_exhausted_iterator_is_null
                    (dfs_end string) (bfs_end string))).
    reflexivity.
  - apply (proj1 (proj2 (arrow_of_exhausted_iterator_is_null
                           (dfs_end string) (bfs_end string)))).
    reflexivity.
Defined.

(** ** More on recursive removal *)

Section RemovalFacts.

Variable T : Type.
Variable T_eq : T -> T -> bool.

Lemma existsb_none (A : Type) (f : A -> bool) (l : list A) :
  Forall (fun x => f x = false) l -> existsb f l = false.
Proof.
  induction 1 as [|x l Hx _ IH]; simpl; [reflexivity|].
  now rewrite Hx, IH.
Qed.

Lemma subsequence_nil_l (l : list T) : subsequence [] l.
Proof.
  induction l; [apply subsequence_nil | now apply subsequence_skip].
Qed.

Lemma subsequence_app (l1 l2 k1 k2 : list T) :
  subsequence l1 l2 -> subsequence k1 k2 -> subsequence (l1 ++ k1) (l2 ++ k2).
Proof.
  intros Hl Hk. induction Hl; simpl;
    [exact Hk | now apply subsequence_skip | now apply subsequence_keep].
Qed.

Lemma subtree_values_unfold (d : T) (cs : list (node T)) :
  subtree_values (Node d cs) = d :: flat_map (@subtree_values T) cs.
Proof.
  unfold subtree_values, subtree. simpl. f_equal.
  induction cs as [|c cs IH]; simpl; [reflexivity|].
  now rewrite map_app, IH.
Qed.

Lemma prune_subsequence (v : T) (n : node T) :
  subsequence (subtree_values (prune T_eq v n)) (subtree_values n).
Proof.
  induction n as [d cs IH] using node_forall_ind.
  cbn [prune]. rewrite !subtree_values_unfold. apply subsequence_keep.
  induction IH as [|c cs Hc _ IHcs]; [apply subsequence_nil|].
  cbn [flat_map]. destruct (holds T_eq v c); cbn [app flat_map].
  - apply (subsequence_app (l1 := [])); [apply subsequence_nil_l | exact IHcs].
  - now apply subsequence_app.
Qed.

Lemma prune_prune (v w : T) (n : node T) :
  prune T_eq v (prune T_eq w n) = prune T_eq w (prune T_eq v n).
Proof.
  induction n as [d cs IH] using node_forall_ind.
  cbn [prune]. f_equal.
  induction IH as [|c cs Hc _ IHcs]; simpl; [reflexivity|].
  destruct (holds T_eq w c) eqn:Hw, (holds T_eq v c) eqn:Hv; simpl;
    unfold holds in *; rewrite ?prune_data, ?Hw, ?Hv; simpl;
    rewrite IHcs; try reflexivity.
  now rewrite Hc.
Qed.

Lemma prune_occurrences (v : T) (n : node T) :
  occurrences_below T_eq v (prune T_eq v n) = 0.
Proof. apply occurrences_below_absent, prune_clean. Qed.

End RemovalFacts.

(** X1. A second [remove_recursive] of the same value finds nothing: it
    returns 0 and leaves the node as the first call left it. *)
Theorem remove_recursive_twice (T : Type) (T_eq : T -> T -> bool)
    (v : T) (n : node T) :
  remove_recursive T_eq v (fst (remove_recursive T_eq v n))
  = (fst (remove_recursive T_eq v n), 0).
Proof.
  rewrite (surjective_pairing (remove_recursive T_eq v (fst _))).
  rewrite !remove_recursive_prune, remove_recursive_count.
  rewrite prune_occurrences, prune_absent; [reflexivity|].
  apply prune_occurrences.
Qed.

(** X2. After [remove_recursive(v)], [contains_recursive(v)] on the node ends
    with the answer whether the node itself holds [v]: the node the call was
    made on is the only place where [v] can be left. *)
Theorem contains_recursive_after_remove_recursive (T : Type)
    (T_eq : T -> T -> bool) (v : T) (n : node T) (fuel : nat) :
  node_count n < fuel ->
  contains_recursive T_eq fuel (fst (remove_recursive T_eq v n)) v
  = Some (T_eq (const_data n) v).
Proof.
  intros Hfuel. rewrite remove_recursive_prune.
  pose proof (prune_clean T_eq v n) as Hclean.
  pose proof (prune_node_count T_eq v n) as Hcount.
  rewrite contains_recursive_existsb by lia.
  unfold subtree. cbn [existsb].
  rewrite (existsb_none _ Hclean), holds_prune, orb_false_r. reflexivity.
Qed.

Lemma contains_recursive_after_remove_recursive_witness :
  contains_recursive String.eqb 4
    (fst (remove_recursive String.eqb "X"%string Sample.x_at_root))
    "X"%string
  = Some (String.eqb (const_data Sample.x_at_root) "X"%string).
Proof.
  apply (contains_recursive_after_remove_recursive String.eqb "X"%string
           Sample.x_at_root (fuel := 4)).
  vm_compute. lia.
Defined.

(** X3. Two recursive removals of two values leave the same tree in either
    order (the counts they return may differ). *)
Theorem remove_recursive_commutes (T : Type) (T_eq : T -> T -> bool)
    (v w : T) (n : node T) :
  fst (remove_recursive T_eq v (fst (remove_recursive T_eq w n)))
  = fst (remove_recursive T_eq w (fst (remove_recursive T_eq v n))).
Proof. rewrite !remove_recursive_prune. apply prune_prune. Qed.

(** X4. [remove_recursive] neither reorders nor invents nodes: the values a
    DFS loop meets after the call are the values it met before, some left
    out, the others in their order; and both loops end. *)
Theorem remove_recursive_keeps_order (T : Type) (T_eq : T -> T -> bool)
    (v : T) (n : node T) (fuel : nat) :
  node_count n < fuel ->
  exists before after : list (node_ptr T),
    dfs_range fuel (dfs_begin (root_ptr n)) (dfs_end T) = Some before
    /\ dfs_range fuel
         (dfs_begin (root_ptr (fst (remove_recursive T_eq v n)))) (dfs_end T)
       = Some after
    /\ subsequence (map (fun p => const_data (pointee p)) after)
                   (map (fun p => const_data (pointee p)) before).
Proof.
  intros Hfuel. rewrite remove_recursive_prune.
  pose proof (prune_node_count T_eq v n) as Hcount.
  exists (preorder (root_ptr n)), (preorder (root_ptr (prune T_eq v n))).
  repeat split.
  - now apply dfs_range_preorder.
  - apply dfs_range_preorder. simpl. lia.
  - rewrite <- !(map_map (@pointee T) (@const_data T)).
    unfold preorder. rewrite !preorder_nodes.
    apply prune_subsequence.
Qed.

Lemma remove_recursive_keeps_order_witness :
  exists before after : list (node_ptr string),
    dfs_range 6 (dfs_begin (root_ptr Sample.abcde)) (dfs_end string)
    = Some before
    /\ dfs_range 6
         (dfs_begin
            (root_ptr (fst (remove_recursive String.eqb "B"%string Sample.abcde))))
         (dfs_end string)
       = Some after
    /\ subsequence (map (fun p => const_data (pointee p)) after)
                   (map (fun p => const_data (pointee p)) before).
Proof.
  apply (remove_recursive_keeps_order String.eqb "B"%string Sample.abcde
           (fuel := 6)).
  vm_compute. lia.
Defined.

(** ** More on appending *)

Section AppendFacts.

Variable T : Type.
Variable T_eq : T -> T -> bool.

Lemma back_last (a : list nat) (l : list (node T)) :
  forall (i : nat) (x : node T),
    back a i (l ++ [x])
    = Some {| addr := a ++ [i + length l]; pointee := x |}.
Proof.
  induction l as [|y l IH]; intros i x; simpl.
  - now rewrite Nat.add_0_r.
  - rewrite IH. replace (i + S (length l)) with (S i + length l) by lia.
    destruct (l ++ [x]) eqn:Hl; [now destruct l | reflexivity].
Qed.

Lemma descendants_app (d : T) (cs : list (node T)) (b : node T) :
  descendants (Node d (cs ++ [b])) = descendants (Node d cs) ++ subtree b.
Proof. simpl. rewrite flat_map_app. simpl. now rewrite app_nil_r. Qed.

Lemma node_count_app (d : T) (cs : list (node T)) (b : node T) :
  node_count (Node d (cs ++ [b])) = node_count (Node d cs) + node_count b.
Proof. simpl. rewrite map_app, list_sum_app. simpl. lia. Qed.

Lemma load_app (a a' : list nat) :
  forall root : node T,
    load root (a ++ a')
    = match load root a with Some n => load n a' | None => None end.
Proof.
  induction a as [|i a IH]; intros root; simpl; [reflexivity|].
  destruct (nth_error (children root) i); [apply IH | reflexivity].
Qed.

Lemma firstn_skipn_middle (A : Type) (l1 l2 : list A) (x : A) :
  firstn (length l1) (l1 ++ x :: l2) = l1
  /\ skipn (S (length l1)) (l1 ++ x :: l2) = l2
  /\ nth_error (l1 ++ x :: l2) (length l1) = Some x.
Proof.
  repeat split.
  - rewrite firstn_app, firstn_all, Nat.sub_diag. simpl. apply app_nil_r.
  - rewrite skipn_app, skipn_all2 by lia.
    replace (S (length l1) - length l1) with 1 by lia. reflexivity.
  - rewrite nth_error_app2 by lia. now rewrite Nat.sub_diag.
Qed.

(** Writing a node where there is one succeeds; the node is then found at
    that address, and the object has as many nodes more as the written node
    has more than the one it replaces. *)
Lemma store_load (a : list nat) (n' : node T) :
  forall root n : node T,
    load root a = Some n ->
    exists root',
      store root a n' = Some root'
      /\ load root' a = Some n'
      /\ node_count root' + node_count n = node_count root + node_count n'.
Proof.
  induction a as [|i a IH]; intros root n Hload.
  - injection Hload as <-. exists n'. repeat split. lia.
  - destruct root as [d cs]. cbn [load store children const_data] in *.
    destruct (nth_error cs i) as [c|] eqn:Hc; [|discriminate].
    destruct (IH c n Hload) as (c' & Hstore & Hload' & Hcount).
    rewrite Hstore.
    apply nth_error_split in Hc. destruct Hc as (l1 & l2 & -> & <-).
    destruct (firstn_skipn_middle l1 l2 c) as (Hfst & Hskip & _).
    destruct (firstn_skipn_middle l1 l2 c') as (_ & _ & Hnth).
    rewrite Hfst, Hskip.
    eexists. split; [reflexivity|].
    cbn [load children]. rewrite Hnth.
    split; [exact Hload'|].
    cbn [node_count]. rewrite !map_app, !list_sum_app. simpl. lia.
Qed.

End AppendFacts.

(** X6. [a >> b] with a node [b] puts the nodes of [b] after the nodes that
    were below [a] in pre-order, so that a DFS of [a] meets the new subtree
    last; [a] gains as many nodes as [b] has; and afterwards
    [contains_recursive(w)] on [a] ends with the disjunction of its answers
    on [a] before the call and on [b]. *)
Theorem shift_node_composes (T : Type) (T_eq : T -> T -> bool)
    (a : node_ptr T) (b : node T) (w : T) (fuel : nat) :
  node_count (pointee a) + node_count b < fuel ->
  let after := parent_after (shift_node a b) in
  descendants after = descendants (pointee a) ++ b :: descendants b
  /\ node_count after = node_count (pointee a) + node_count b
  /\ exists in_a in_b : bool,
       contains_recursive T_eq fuel (pointee a) w = Some in_a
       /\ contains_recursive T_eq fuel b w = Some in_b
       /\ contains_recursive T_eq fuel after w = Some (in_a || in_b).
Proof.
  intros Hfuel. cbv zeta. unfold shift_node, push_back.
  cbn [parent_after]. rewrite node_copy_id.
  destruct a as [adr [d cs]]. cbn [pointee const_data children] in *.
  pose proof (descendants_app d cs b) as Hdesc.
  pose proof (node_count_app d cs b) as Hcount.
  repeat split; [exact Hdesc | exact Hcount |].
  exists (existsb (holds T_eq w) (subtree (Node d cs))),
         (existsb (holds T_eq w) (subtree b)).
  rewrite !contains_recursive_existsb by lia.
  repeat split.
  unfold subtree at 1. rewrite Hdesc. cbn [existsb].
  rewrite existsb_app. unfold subtree. cbn [existsb holds const_data].
  now rewrite orb_assoc.
Qed.

Lemma shift_node_composes_witness :
  let after :=
    parent_after (shift_node (root_ptr Sample.abcde) Sample.x_at_root) in
  descendants after
  = descendants Sample.abcde ++ Sample.x_at_root :: descendants Sample.x_at_root
  /\ node_count after = node_count Sample.abcde + node_count Sample.x_at_root
  /\ exists in_a in_b : bool,
       contains_recursive String.eqb 9 Sample.abcde "Y"%string = Some in_a
       /\ contains_recursive String.eqb 9 Sample.x_at_root "Y"%string = Some in_b
       /\ contains_recursive String.eqb 9 after "Y"%string = Some (in_a || in_b).
Proof.
  apply (shift_node_composes String.eqb (root_ptr Sample.abcde)
           Sample.x_at_root "Y"%string (fuel := 9)).
  vm_compute. lia.
Defined.

(** X7. [operator>>] called on a node that is part of a larger object (through
    a reference to it) changes that node in place: the call succeeds wherever
    there is a node, the node at that address then has the new childless node
    as its last child, the returned reference is the address of that child in
    the larger object, and the object has one node more. *)
Theorem shift_value_in_place (T : Type) (root n : node T) (a : list nat)
    (v : T) :
  load root a = Some n ->
  exists root',
    shift_value_at root a v
    = Some (root',
            Some {| addr := a ++ [length (children n)]; pointee := Node v [] |})
    /\ load root' a = Some (Node (const_data n) (children n ++ [Node v []]))
    /\ load root' (a ++ [length (children n)]) = Some (Node v [])
    /\ node_count root' = S (node_count root).
Proof.
  intros Hload. unfold shift_value_at. rewrite Hload.
  unfold shift_value, push_back.
  cbn [children pointee addr node_copy node_of_value map].
  rewrite back_last. cbn [Nat.add].
  destruct (store_load a
              (Node (const_data n) (children n ++ [Node v []])) root Hload)
    as (root' & Hstore & Hload' & Hcount).
  rewrite Hstore. exists root'. repeat split.
  - exact Hload'.
  - rewrite load_app, Hload'. cbn [load children].
    rewrite nth_error_app2 by lia. now rewrite Nat.sub_diag.
  - destruct n as [d cs]. rewrite node_count_app in Hcount. simpl in *. lia.
Qed.

Lemma shift_value_in_place_witness :
  exists root',
    shift_value_at Sample.abcde [1] "F"%string
    = Some (root',
            Some {| addr := [1] ++ [1]; pointee := Node "F"%string [] |})
    /\ load root' [1]
       = Some (Node "C"%string [Sample.leaf "E"%string; Node "F"%string []])
    /\ load root' ([1] ++ [1]) = Some (Node "F"%string [])
    /\ node_count root' = S (node_count Sample.abcde).
Proof.
  apply (@shift_value_in_place string Sample.abcde
           (Node "C"%string [Sample.leaf "E"%string]) [1] "F"%string).
  reflexivity.
Defined.

(** X8. Chained append: in [root >> x >> y] the second call is made on the
    reference the first one returns, so [x] becomes the last child of [root]
    and [y] the only child of [x], not a child of [root]. *)
Theorem shift_value_chain (T : Type) (root : node T) (x y : T) :
  exists (root1 : node T) (first : node_ptr T),
    shift_value (root_ptr root) x = (root1, Some first)
    /\ shift_value_at root [] x = Some (root1, Some first)
    /\ shift_value_at root1 (addr first) y
       = Some (Node (const_data root)
                 (children root ++ [Node x [Node y []]]),
               Some {| addr := [length (children root); 0];
                       pointee := Node y [] |}).
Proof.
  destruct root as [d cs].
  exists (Node d (cs ++ [Node x []])),
         {| addr := [length cs]; pointee := Node x [] |}.
  assert (Hfirst : shift_value (root_ptr (Node d cs)) x
                   = (Node d (cs ++ [Node x []]),
                      Some {| addr := [length cs]; pointee := Node x [] |})).
  { unfold shift_value, push_back. simpl. now rewrite back_last. }
  repeat split.
  - exact Hfirst.
  - unfold shift_value_at. cbn [load store].
    change {| addr := []; pointee := Node d cs |} with (root_ptr (Node d cs)).
    now rewrite Hfirst.
  - unfold shift_value_at. cbn [addr load store children].
    destruct (firstn_skipn_middle cs [] (Node x [])) as (Hfst & Hskip & Hnth).
    rewrite Hnth. cbn [load store shift_value push_back children pointee addr
      const_data node_copy node_of_value map app back].
    now rewrite Hfst, Hskip.
Qed.

(** ** More on the traversals *)

Section TraversalFacts.

Variable T : Type.

Lemma preorder_unfold (p : node_ptr T) :
  preorder p = p :: flat_map (@preorder T) (child_ptrs p).
Proof.
  destruct p as [a [d cs]]. unfold preorder at 1. cbn [addr pointee].
  apply preorder_at_unfold.
Qed.

(** Whatever the queue holds, the BFS loop visits the nodes that the
    pre-orders of the queued subtrees list. *)
Lemma bfs_range_permutation (fuel : nat) :
  forall (q l : list (node_ptr T)),
    bfs_range fuel {| queue_ := q |} (bfs_end T) = Some l ->
    Permutation l (flat_map (@preorder T) q).
Proof.
  induction fuel as [|fuel IH]; intros q l Hl; [discriminate|].
  destruct q as [|p q].
  - rewrite bfs_range_nil in Hl. injection Hl as <-. constructor.
  - rewrite bfs_range_cons in Hl.
    destruct (bfs_range fuel _ _) as [l'|] eqn:Hl'; [|discriminate].
    injection Hl as <-. apply IH in Hl'.
    cbn [flat_map]. rewrite preorder_unfold. cbn [app]. apply perm_skip.
    eapply Permutation_trans; [exact Hl'|].
    rewrite flat_map_app. apply Permutation_app_comm.
Qed.

Lemma element_ptrs_In (a : list nat) (l : list (node T)) :
  forall (i : nat) (q : node_ptr T),
    In q (element_ptrs a i l) ->
    exists j c, nth_error l j = Some c
                /\ q = {| addr := a ++ [i + j]; pointee := c |}.
Proof.
  induction l as [|c l IH]; intros i q Hq; [destruct Hq|].
  destruct Hq as [<-|Hq].
  - exists 0, c. split; [reflexivity | now rewrite Nat.add_0_r].
  - destruct (IH _ _ Hq) as (j & c' & Hj & ->).
    exists (S j), c'. split; [exact Hj|]. now rewrite Nat.add_succ_r.
Qed.

Lemma element_ptrs_nth (a : list nat) (l : list (node T)) :
  forall (i j : nat) (c : node T),
    nth_error l j = Some c ->
    In {| addr := a ++ [i + j]; pointee := c |} (element_ptrs a i l).
Proof.
  induction l as [|c' l IH]; intros i j c Hj; [now destruct j|].
  destruct j as [|j]; simpl in *.
  - injection Hj as ->. left. now rewrite Nat.add_0_r.
  - right. rewrite Nat.add_succ_r. now apply (IH (S i)).
Qed.

(** Every pointer of a pre-order refers to a node of the subtree, found at
    the pointer's address. *)
Lemma preorder_at_shape (n : node T) :
  forall (a : list nat) (q : node_ptr T),
    In q (preorder_at a n) ->
    exists rel, addr q = a ++ rel /\ load n rel = Some (pointee q).
Proof.
  induction n as [d cs IH] using node_forall_ind. intros a q Hq.
  rewrite preorder_at_unfold in Hq. destruct Hq as [<-|Hq].
  - exists []. split; [now rewrite app_nil_r | reflexivity].
  - apply in_flat_map in Hq. destruct Hq as (cp & Hcp & Hq).
    apply element_ptrs_In in Hcp. destruct Hcp as (j & c & Hj & ->).
    rewrite Forall_forall in IH.
    destruct (IH c (nth_error_In _ _ Hj) _ _ Hq) as (rel & Haddr & Hload).
    cbn [addr pointee] in Haddr, Hload.
    exists (j :: rel). split.
    + rewrite Haddr, <- app_assoc. reflexivity.
    + cbn [load children]. now rewrite Hj.
Qed.

(** Every node of the subtree is in the pre-order, under its address. *)
Lemma preorder_at_complete (rel : list nat) :
  forall (n : node T) (a : list nat) (m : node T),
    load n rel = Some m ->
    In {| addr := a ++ rel; pointee := m |} (preorder_at a n).
Proof.
  induction rel as [|j rel IH]; intros [d cs] a m Hm;
    rewrite preorder_at_unfold.
  - injection Hm as <-. left. now rewrite app_nil_r.
  - cbn [load children] in Hm.
    destruct (nth_error cs j) as [c|] eqn:Hj; [|discriminate].
    right. apply in_flat_map.
    exists {| addr := a ++ [j]; pointee := c |}. split.
    + now apply (element_ptrs_nth a cs 0 j).
    + unfold preorder. cbn [addr pointee].
      replace (a ++ j :: rel) with ((a ++ [j]) ++ rel)
        by now rewrite <- app_assoc.
      now apply IH.
Qed.

Lemma forest_shape (a : list nat) (l : list (node T)) (i : nat)
    (q : node_ptr T) :
  In q (flat_map (@preorder T) (element_ptrs a i l)) ->
  exists j rel, addr q = a ++ (i + j) :: rel.
Proof.
  intros Hq. apply in_flat_map in Hq. destruct Hq as (cp & Hcp & Hq).
  apply element_ptrs_In in Hcp. destruct Hcp as (j & c & _ & ->).
  apply preorder_at_shape in Hq. destruct Hq as (rel & Haddr & _).
  exists j, rel. rewrite Haddr. cbn [addr]. now rewrite <- app_assoc.
Qed.

(** No address occurs twice in a pre-order. *)
Lemma preorder_at_NoDup (n : node T) :
  forall a, NoDup (map (@addr T) (preorder_at a n)).
Proof.
  induction n as [d cs IH] using node_forall_ind. intros a.
  rewrite preorder_at_unfold. cbn [map addr]. constructor.
  - intros Hin. apply in_map_iff in Hin. destruct Hin as (q & Haddr & Hq).
    apply forest_shape in Hq. destruct Hq as (j & rel & Hq).
    rewrite Haddr in Hq. rewrite <- (app_nil_r a) in Hq at 1.
    apply app_inv_head in Hq. discriminate.
  - generalize 0 as i.
    induction IH as [|c cs Hc _ IHcs]; intros i; [constructor|].
    cbn [element_ptrs flat_map]. rewrite map_app. apply NoDup_app.
    + apply Hc.
    + apply IHcs.
    + intros x Hx1 Hx2.
      apply in_map_iff in Hx1. destruct Hx1 as (q1 & <- & Hq1).
      apply in_map_iff in Hx2. destruct Hx2 as (q2 & Heq & Hq2).
      apply preorder_at_shape in Hq1. destruct Hq1 as (rel1 & Hq1 & _).
      apply forest_shape in Hq2. destruct Hq2 as (j & rel2 & Hq2).
      cbn [addr] in Hq1. rewrite Heq, Hq1, <- app_assoc in Hq2.
      apply app_inv_head in Hq2. injection Hq2 as Hi _. lia.
Qed.

(** Children are one level deeper than their parent. *)
Lemma child_ptrs_depth (p : node_ptr T) :
  Forall (fun q => depth q = S (depth p)) (child_ptrs p).
Proof.
  apply Forall_forall. intros q Hq. unfold child_ptrs in Hq.
  apply element_ptrs_In in Hq. destruct Hq as (j & c & _ & ->).
  unfold depth. cbn [addr]. rewrite length_app. simpl. lia.
Qed.

Lemma generation_depth (k : nat) :
  forall (ps : list (node_ptr T)) (b : nat),
    Forall (fun p => depth p = b) ps ->
    Forall (fun p => depth p = k + b) (generation k ps).
Proof.
  induction k as [|k IH]; intros ps b Hps; [exact Hps|].
  cbn [generation]. replace (S k + b) with (k + S b) by lia.
  apply IH. apply Forall_flat_map.
  apply (Forall_impl _ (P := fun p => depth p = b)); [|exact Hps].
  intros p <-. apply child_ptrs_depth.
Qed.

Lemma StronglySorted_app (l1 l2 : list nat) :
  StronglySorted le l1 -> StronglySorted le l2 ->
  (forall x y, In x l1 -> In y l2 -> x <= y) ->
  StronglySorted le (l1 ++ l2).
Proof.
  intros H1 H2 H12. induction H1 as [|x l1 H1 IH Hx]; [exact H2|].
  cbn [app]. constructor.
  - apply IH. intros x' y Hx' Hy. apply H12; [now right | exact Hy].
  - apply Forall_app. split; [exact Hx|].
    apply Forall_forall. intros y Hy. apply H12; [now left | exact Hy].
Qed.

Lemma StronglySorted_constant (c : nat) (l : list nat) :
  Forall (fun x => x = c) l -> StronglySorted le l.
Proof.
  induction 1 as [|x l Hx Hl IH]; constructor; [exact IH|].
  apply (Forall_impl _ (P := fun y => y = c)); [|exact Hl]. lia.
Qed.

(** Lists of which the [k]-th holds only [k + b], one after the other, are
    in ascending order. *)
Lemma levels_sorted (G : nat -> list nat) (b h : nat) :
  (forall k, Forall (fun x => x = k + b) (G k)) ->
  forall s, StronglySorted le (flat_map G (seq s h)).
Proof.
  intros HG. induction h as [|h IH]; intros s; cbn [seq flat_map];
    [constructor|].
  apply StronglySorted_app.
  - apply (StronglySorted_constant (HG s)).
  - apply IH.
  - intros x y Hx Hy.
    pose proof (HG s) as Hs. rewrite Forall_forall in Hs. apply Hs in Hx.
    apply in_flat_map in Hy. destruct Hy as (k & Hk & Hy).
    apply in_seq in Hk.
    pose proof (HG k) as Hk'. rewrite Forall_forall in Hk'. apply Hk' in Hy.
    lia.
Qed.

Lemma level_order_sorted (p : node_ptr T) :
  StronglySorted le (map (@depth T) (level_order p)).
Proof.
  unfold level_order.
  rewrite flat_map_concat_map, concat_map, map_map, <- flat_map_concat_map.
  apply levels_sorted with (b := depth p).
  intros k. apply Forall_map.
  apply generation_depth. now constructor.
Qed.

Variable T_eq : T -> T -> bool.

(** [std::find] over a BFS range stops at the first visited node that holds
    the value. *)
Lemma bfs_find_first (v : T) (fuel : nat) :
  forall (q l : list (node_ptr T)),
    bfs_range fuel {| queue_ := q |} (bfs_end T) = Some l ->
    exists it,
      bfs_find T_eq fuel {| queue_ := q |} (bfs_end T) v = Some it
      /\ bfs_arrow it = find (fun p => holds T_eq v (pointee p)) l.
Proof.
  induction fuel as [|fuel IH]; intros q l Hl; [discriminate|].
  destruct q as [|p q].
  - rewrite bfs_range_nil in Hl. injection Hl as <-.
    exists {| queue_ := [] |}. split; reflexivity.
  - rewrite bfs_range_cons in Hl.
    destruct (bfs_range fuel _ _) as [l'|] eqn:Hl'; [|discriminate].
    injection Hl as <-.
    cbn [bfs_find find]. rewrite bfs_ne_end. cbn [queue_ bfs_star].
    unfold node_eq_value, holds.
    destruct (T_eq (const_data (pointee p)) v).
    + exists {| queue_ := p :: q |}. split; reflexivity.
    + rewrite bfs_incr_cons. now apply IH.
Qed.

End TraversalFacts.

(** X9. The DFS loop and the BFS loop over the same subtree both end and
    visit the same nodes, the same number of times, in different orders. *)
Theorem dfs_bfs_visit_the_same_nodes (T : Type) (p : node_ptr T)
    (fuel : nat) :
  node_count (pointee p) < fuel ->
  exists by_depth by_level : list (node_ptr T),
    dfs_range fuel (dfs_begin p) (dfs_end T) = Some by_depth
    /\ bfs_range fuel (bfs_begin p) (bfs_end T) = Some by_level
    /\ Permutation by_depth by_level
    /\ length by_depth = node_count (pointee p).
Proof.
  intros Hfuel. exists (preorder p), (level_order p).
  pose proof (dfs_range_preorder p Hfuel) as Hdfs.
  pose proof (bfs_range_level_order p Hfuel) as Hbfs.
  repeat split; [exact Hdfs | exact Hbfs | |].
  - apply bfs_range_permutation in Hbfs. cbn [app flat_map] in Hbfs.
    rewrite app_nil_r in Hbfs. now apply Permutation_sym.
  - apply dfs_range_length in Hdfs. rewrite Hdfs.
    unfold forest_count. simpl. lia.
Qed.

Lemma dfs_bfs_visit_the_same_nodes_witness :
  exists by_depth by_level : list (node_ptr string),
    dfs_range 6 (dfs_begin (root_ptr Sample.abcde)) (dfs_end string)
    = Some by_depth
    /\ bfs_range 6 (bfs_begin (root_ptr Sample.abcde)) (bfs_end string)
       = Some by_level
    /\ Permutation by_depth by_level
    /\ length by_depth = node_count (pointee (root_ptr Sample.abcde)).
Proof.
  apply (@dfs_bfs_visit_the_same_nodes string (root_ptr Sample.abcde) 6).
  vm_compute. lia.
Defined.

(** X10. Either loop visits exactly the nodes of the subtree, each of them
    once: no address is visited twice, and a pointer is visited exactly when
    its address leads, from the node the loop started at, to the node it
    refers to. *)
Theorem traversals_visit_each_node_once (T : Type) (p : node_ptr T)
    (fuel : nat) :
  node_count (pointee p) < fuel ->
  exists by_depth by_level : list (node_ptr T),
    dfs_range fuel (dfs_begin p) (dfs_end T) = Some by_depth
    /\ bfs_range fuel (bfs_begin p) (bfs_end T) = Some by_level
    /\ NoDup (map (@addr T) by_depth)
    /\ NoDup (map (@addr T) by_level)
    /\ forall q : node_ptr T,
         (exists rel, addr q = addr p ++ rel
                      /\ load (pointee p) rel = Some (pointee q))
         <-> In q by_depth /\ In q by_level.
Proof.
  intros Hfuel. exists (preorder p), (level_order p).
  pose proof (dfs_range_preorder p Hfuel) as Hdfs.
  pose proof (bfs_range_level_order p Hfuel) as Hbfs.
  assert (Hperm : Permutation (preorder p) (level_order p)).
  { apply bfs_range_permutation in Hbfs. cbn [app flat_map] in Hbfs.
    rewrite app_nil_r in Hbfs. now apply Permutation_sym. }
  repeat split; [exact Hdfs | exact Hbfs | | | | |].
  - apply preorder_at_NoDup.
  - apply (Permutation_NoDup (Permutation_map (@addr T) Hperm)).
    apply preorder_at_NoDup.
  - destruct H as (rel & Haddr & Hload). destruct q as [a m].
    cbn [addr pointee] in *. subst a.
    now apply preorder_at_complete.
  - destruct H as (rel & Haddr & Hload). destruct q as [a m].
    cbn [addr pointee] in *. subst a.
    apply (Permutation_in _ Hperm). now apply preorder_at_complete.
  - intros [Hq _]. now apply preorder_at_shape.
Qed.

Lemma traversals_visit_each_node_once_witness :
  exists by_depth by_level : list (node_ptr string),
    dfs_range 6 (dfs_begin (root_ptr Sample.abcde)) (dfs_end string)
    = Some by_depth
    /\ bfs_range 6 (bfs_begin (root_ptr Sample.abcde)) (bfs_end string)
       = Some by_level
    /\ NoDup (map (@addr string) by_depth)
    /\ NoDup (map (@addr string) by_level)
    /\ forall q : node_ptr string,
         (exists rel, addr q = addr (root_ptr Sample.abcde) ++ rel
                      /\ load (pointee (root_ptr Sample.abcde)) rel
                         = Some (pointee q))
         <-> In q by_depth /\ In q by_level.
Proof.
  apply (@traversals_visit_each_node_once string (root_ptr Sample.abcde) 6).
  vm_compute. lia.
Defined.

(** X11. The BFS loop never visits a node before a node that lies less deep:
    the depths of the visited nodes, in the order of the visit, ascend. *)
Theorem bfs_visits_by_depth (T : Type) (p : node_ptr T) (fuel : nat) :
  node_count (pointee p) < fuel ->
  exists by_level : list (node_ptr T),
    bfs_range fuel (bfs_begin p) (bfs_end T) = Some by_level
    /\ StronglySorted le (map (@depth T) by_level).
Proof.
  intros Hfuel. exists (level_order p). split.
  - now apply bfs_range_level_order.
  - apply level_order_sorted.
Qed.

Lemma bfs_visits_by_depth_witness :
  exists by_level : list (node_ptr string),
    bfs_range 6 (bfs_begin (root_ptr Sample.abcde)) (bfs_end string)
    = Some by_level
    /\ StronglySorted le (map (@depth string) by_level).
Proof.
  apply (@bfs_visits_by_depth string (root_ptr Sample.abcde) 6).
  vm_compute. lia.
Defined.

(** X12. [std::find] from [bfs_begin] to [bfs_end], as [contains_recursive]
    calls it, ends; the iterator it returns points to the first node, in the
    order of the BFS visit, that holds the value, and is the end iterator
    when there is none. *)
Theorem bfs_find_returns_first_holder (T : Type) (T_eq : T -> T -> bool)
    (p : node_ptr T) (v : T) (fuel : nat) :
  node_count (pointee p) < fuel ->
  exists (by_level : list (node_ptr T)) (found : bfs_iterator T),
    bfs_range fuel (bfs_begin p) (bfs_end T) = Some by_level
    /\ bfs_find T_eq fuel (bfs_begin p) (bfs_end T) v = Some found
    /\ bfs_arrow found
       = find (fun q => T_eq (const_data (pointee q)) v) by_level
    /\ (bfs_eq found (bfs_end T) = true <->
        Forall (fun q => T_eq (const_data (pointee q)) v = false) by_level).
Proof.
  intros Hfuel.
  pose proof (bfs_range_level_order p Hfuel) as Hbfs.
  destruct (bfs_find_first T_eq v _ _ Hbfs) as (found & Hfind & Harrow).
  exists (level_order p), found.
  repeat split; [exact Hbfs | exact Hfind | exact Harrow | |].
  - rewrite bfs_eq_end, Harrow. intros Hnone.
    apply Forall_forall. intros q Hq.
    destruct (find _ (level_order p)) eqn:Hf; [discriminate|].
    apply (find_none _ _ Hf q Hq).
  - rewrite bfs_eq_end, Harrow. intros Hall.
    destruct (find _ (level_order p)) as [q|] eqn:Hf; [|reflexivity].
    apply find_some in Hf. destruct Hf as [Hq Hv].
    rewrite Forall_forall in Hall. unfold holds in Hv.
    rewrite (Hall q Hq) in Hv. discriminate.
Qed.

Lemma bfs_find_returns_first_holder_witness :
  exists (by_level : list (node_ptr string)) (found : bfs_iterator string),
    bfs_range 4 (bfs_begin (root_ptr Sample.x_at_root)) (bfs_end string)
    = Some by_level
    /\ bfs_find String.eqb 4 (bfs_begin (root_ptr Sample.x_at_root))
         (bfs_end string) "Y"%string = Some found
    /\ bfs_arrow found
       = find (fun q => String.eqb (const_data (pointee q)) "Y"%string)
           by_level
    /\ (bfs_eq found (bfs_end string) = true <->
        Forall (fun q => String.eqb (const_data (pointee q)) "Y"%string = false)
          by_level).
Proof.
  apply (@bfs_find_returns_first_holder string String.eqb
           (root_ptr Sample.x_at_root) "Y"%string 4).
  vm_compute. lia.
Defined.

(** X14. A node as [tree(data)] or [node(data)] constructs it has no children:
    [contains_recursive(v)] is the comparison of [data] with [v],
    [remove_recursive] returns 0 and changes nothing, and either traversal
    visits the node alone. *)
Theorem fresh_tree_is_a_leaf (T : Type) (T_eq : T -> T -> bool)
    (data v : T) (fuel : nat) :
  1 < fuel ->
  children (tree data) = []
  /\ contains_recursive T_eq fuel (tree data) v = Some (T_eq data v)
  /\ remove_recursive T_eq v (tree data) = (tree data, 0)
  /\ dfs_range fuel (dfs_begin (root_ptr (tree data))) (dfs_end T)
     = Some [root_ptr (tree data)]
  /\ bfs_range fuel (bfs_begin (root_ptr (tree data))) (bfs_end T)
     = Some [root_ptr (tree data)].
Proof.
  intros Hfuel.
  destruct fuel as [|[|fuel]]; [lia | lia |].
  repeat split.
  rewrite contains_recursive_existsb by (simpl; lia).
  simpl. now rewrite orb_false_r.
Qed.

Lemma fresh_tree_is_a_leaf_witness :
  children (tree "A"%string) = []
  /\ contains_recursive String.eqb 2 (tree "A"%string) "A"%string
     = Some (String.eqb "A"%string "A"%string)
  /\ remove_recursive String.eqb "A"%string (tree "A"%string)
     = (tree "A"%string, 0)
  /\ dfs_range 2 (dfs_begin (root_ptr (tree "A"%string))) (dfs_end string)
     = Some [root_ptr (tree "A"%string)]
  /\ bfs_range 2 (bfs_begin (root_ptr (tree "A"%string))) (bfs_end string)
     = Some [root_ptr (tree "A"%string)].
Proof.
  apply (fresh_tree_is_a_leaf String.eqb "A"%string "A"%string (fuel := 2)).
  lia.
Defined.

(** Pointers taken from a list without repeated addresses compare equal
    exactly at equal positions, or when both are null. *)
Lemma ptr_eqb_nth_error (T : Type) (l : list (node_ptr T)) (i j : nat) :
  NoDup (map (@addr T) l) ->
  ptr_eqb (nth_error l i) (nth_error l j) = true
  <-> i = j \/ (length l <= i /\ length l <= j).
Proof.
  intros Hnodup.
  destruct (nth_error l i) as [x|] eqn:Hi, (nth_error l j) as [y|] eqn:Hj;
    cbn [ptr_eqb].
  - destruct (list_eq_dec Nat.eq_dec (addr x) (addr y)) as [Heq|Hne].
    + split; [intros _ | reflexivity]. left.
      apply (proj1 (NoDup_nth_error (map (@addr T) l)) Hnodup).
      * rewrite length_map. apply nth_error_Some. congruence.
      * rewrite !nth_error_map, Hi, Hj. simpl. now rewrite Heq.
    + split; [discriminate|]. intros [->|[Hlen _]].
      * congruence.
      * apply nth_error_None in Hlen. congruence.
  - split; [discriminate|]. intros [->|[Hlen _]].
    + congruence.
    + apply nth_error_None in Hlen. congruence.
  - split; [discriminate|]. intros [->|[_ Hlen]].
    + congruence.
    + apply nth_error_None in Hlen. congruence.
  - split; [intros _ | reflexivity]. right.
    split; now apply nth_error_None.
Qed.

(** X15. Two iterators over the same subtree, obtained from its [dfs_begin]
    (or [bfs_begin]) by [i] and by [j] advances, are equal exactly when
    [i = j] or both have gone through all the nodes: equality tells any two
    nodes of the tree apart, and tells nothing else apart. *)
Theorem iterators_equal_at_same_position (T : Type) (p : node_ptr T)
    (i j : nat) :
  let N := node_count (pointee p) in
  (dfs_eq (Nat.iter i (@dfs_incr T) (dfs_begin p))
          (Nat.iter j (@dfs_incr T) (dfs_begin p)) = true
   <-> i = j \/ (N <= i /\ N <= j))
  /\ (bfs_eq (Nat.iter i (@bfs_incr T) (bfs_begin p))
             (Nat.iter j (@bfs_incr T) (bfs_begin p)) = true
      <-> i = j \/ (N <= i /\ N <= j)).
Proof.
  cbv zeta.
  pose proof (@dfs_range_preorder T p (S (node_count (pointee p)))
                (Nat.lt_succ_diag_r _)) as Hdfs.
  pose proof (@bfs_range_level_order T p (S (node_count (pointee p)))
                (Nat.lt_succ_diag_r _)) as Hbfs.
  pose proof (dfs_range_length _ _ Hdfs) as Hdlen.
  pose proof (bfs_range_length _ _ Hbfs) as Hblen.
  pose proof (dfs_range_steps _ _ Hdfs) as Hdstep.
  pose proof (bfs_range_steps _ _ Hbfs) as Hbstep.
  pose proof (bfs_range_permutation _ _ Hbfs) as Hperm.
  cbn [app flat_map] in Hperm. rewrite app_nil_r in Hperm.
  unfold forest_count in Hdlen, Hblen. simpl in Hdlen, Hblen.
  rewrite Nat.add_0_r in Hdlen, Hblen.
  unfold dfs_begin, dfs_iterator_at, bfs_begin, bfs_iterator_at. cbn [app].
  unfold dfs_eq, dfs_ne, bfs_eq, bfs_ne.
  rewrite !negb_involutive, !Hdstep, !Hbstep.
  split.
  - rewrite <- Hdlen. apply ptr_eqb_nth_error, preorder_at_NoDup.
  - rewrite <- Hblen. apply ptr_eqb_nth_error.
    apply (Permutation_NoDup
             (Permutation_map (@addr T) (Permutation_sym Hperm))).
    apply preorder_at_NoDup.
Qed.

(** X16. Appending a value and removing it again is a round trip: when the
    value compares equal to itself and is not held below [a], then
    [remove_recursive(v)] after [a >> v] returns 1 and leaves [a] as it was
    before the append. *)
Theorem shift_value_then_remove_recursive (T : Type) (T_eq : T -> T -> bool)
    (a : node_ptr T) (v : T) :
  T_eq v v = true ->
  occurrences_below T_eq v (pointee a) = 0 ->
  remove_recursive T_eq v (fst (shift_value a v)) = (pointee a, 1).
Proof.
  intros Hrefl Habsent.
  rewrite (surjective_pairing (remove_recursive T_eq v _)).
  rewrite remove_recursive_prune, remove_recursive_count.
  unfold shift_value, push_back.
  cbn [fst children node_copy node_of_value map].
  destruct a as [adr [d cs]]. cbn [pointee const_data children] in *.
  f_equal.
  - pose proof (prune_absent T_eq v (Node d cs) Habsent) as Hsame.
    cbn [prune] in *. rewrite flat_map_app. cbn [flat_map].
    unfold holds at 2. cbn [const_data]. rewrite Hrefl.
    injection Hsame as ->. now rewrite !app_nil_r.
  - unfold occurrences_below in *.
    rewrite descendants_app, filter_app, length_app, Habsent.
    unfold subtree. cbn [descendants flat_map filter].
    unfold holds at 1. cbn [const_data]. now rewrite Hrefl.
Qed.

Lemma shift_value_then_remove_recursive_witness :
  remove_recursive String.eqb "Z"%string
    (fst (shift_value (root_ptr Sample.abcde) "Z"%string))
  = (pointee (root_ptr Sample.abcde), 1).
Proof.
  apply shift_value_then_remove_recursive; reflexivity.
Defined.

(** ** Appending a node *)

Section StoreFacts.

Variable T : Type.

Lemma nth_error_replace (l : list (node T)) (i j : nat) (c x : node T) :
  nth_error l i = Some c ->
  nth_error (firstn i l ++ x :: skipn (S i) l) j
  = if j =? i then Some x else nth_error l j.
Proof.
  intros Hc. apply nth_error_split in Hc. destruct Hc as (l1 & l2 & -> & <-).
  destruct (firstn_skipn_middle l1 l2 c) as (-> & -> & _).
  destruct (Nat.eqb_spec j (length l1)) as [->|Hne].
  - rewrite nth_error_app2 by lia. now rewrite Nat.sub_diag.
  - destruct (Nat.lt_ge_cases j (length l1)) as [Hlt|Hge].
    + now rewrite !nth_error_app1 by exact Hlt.
    + rewrite !nth_error_app2 by exact Hge.
      destruct (j - length l1) as [|k] eqn:Hk; [lia | reflexivity].
Qed.

Lemma length_replace (l : list (node T)) (i : nat) (c x : node T) :
  nth_error l i = Some c ->
  length (firstn i l ++ x :: skipn (S i) l) = length l.
Proof.
  intros Hc. apply nth_error_split in Hc. destruct Hc as (l1 & l2 & -> & <-).
  destruct (firstn_skipn_middle l1 l2 c) as (-> & -> & _).
  rewrite !length_app. reflexivity.
Qed.

(** Writing inside the node at address [b] is writing in that node. *)
Lemma load_store_above (b rel : list nat) (x : node T) :
  forall root root' nb : node T,
    load root b = Some nb ->
    store root (b ++ rel) x = Some root' ->
    exists nb', store nb rel x = Some nb' /\ load root' b = Some nb'.
Proof.
  induction b as [|i b IH]; intros root root' nb Hload Hstore.
  - injection Hload as <-. exists root'. split; [exact Hstore | reflexivity].
  - destruct root as [d cs]. cbn [app load store children const_data] in *.
    destruct (nth_error cs i) as [c|] eqn:Hc; [|discriminate].
    destruct (store c (b ++ rel) x) as [c'|] eqn:Hc'; [|discriminate].
    injection Hstore as <-.
    destruct (IH c c' nb Hload Hc') as (nb' & Hnb' & Hload').
    exists nb'. split; [exact Hnb'|].
    cbn [load children].
    change (match cs with [] => [] | _ :: l => skipn i l end)
      with (skipn (S i) cs).
    rewrite (@nth_error_replace cs i i c c' Hc), Nat.eqb_refl.
    exact Hload'.
Qed.

(** Writing at an address changes nothing at an address that is neither
    above nor below it. *)
Lemma load_store_apart (a : list nat) (x : node T) :
  forall (b : list nat) (root root' : node T),
    store root a x = Some root' ->
    (forall rel, a <> b ++ rel) ->
    (forall rel, b <> a ++ rel) ->
    load root' b = load root b.
Proof.
  induction a as [|i a IH]; intros b root root' Hstore Hab Hba.
  - now destruct (Hba b).
  - destruct b as [|j b]; [now destruct (Hab (i :: a))|].
    destruct root as [d cs]. cbn [load store children const_data] in *.
    destruct (nth_error cs i) as [c|] eqn:Hc; [|discriminate].
    destruct (store c a x) as [c'|] eqn:Hc'; [|discriminate].
    injection Hstore as <-. cbn [load children].
    change (match cs with [] => [] | _ :: l => skipn i l end)
      with (skipn (S i) cs).
    rewrite (@nth_error_replace cs i j c c' Hc).
    destruct (Nat.eqb_spec j i) as [->|Hne]; [|reflexivity].
    rewrite Hc. apply (IH b c c' Hc').
    + intros rel Heq. apply (Hab rel). cbn [app]. now rewrite Heq.
    + intros rel Heq. apply (Hba rel). cbn [app]. now rewrite Heq.
Qed.

Lemma prefix_dec (a : list nat) :
  forall b : list nat,
    (exists rel, b = a ++ rel) \/ (forall rel, b <> a ++ rel).
Proof.
  induction a as [|i a IH]; intros b.
  - left. now exists b.
  - destruct b as [|j b]; [right; discriminate|].
    destruct (Nat.eq_dec i j) as [->|Hne].
    + destruct (IH b) as [[rel ->]|Hnot].
      * left. now exists rel.
      * right. intros rel Heq. injection Heq as Heq. now apply (Hnot rel).
    + right. intros rel Heq. injection Heq as Heq _. congruence.
Qed.

(** Writing strictly below a node leaves the node its value and its number
    of children. *)
Lemma store_shape (n n' x : node T) (i : nat) (rel : list nat) :
  store n (i :: rel) x = Some n' ->
  const_data n' = const_data n
  /\ length (children n') = length (children n).
Proof.
  cbn [store]. intros Hstore.
  destruct (nth_error (children n) i) as [c|] eqn:Hc; [|discriminate].
  destruct (store c rel x) as [c'|]; [|discriminate].
  injection Hstore as <-. cbn [const_data children].
  split; [reflexivity | apply (@length_replace (children n) i c c' Hc)].
Qed.

End StoreFacts.

(** The claim C7 as it is worded fails: [operator>>] takes the appended node
    by reference and [push_back] copies it, so nothing is moved out of the
    source.  With the two objects [A] and [B[D]] in memory, after [A >> B]
    the source [B] still has its child [D]. *)
Lemma shift_node_at_source_keeps_children :
  ~ (exists root' ret,
        shift_node_at Sample.two_objects [0] [1] = Some (root', ret)
        /\ option_map (@children string) (load root' [1]) = Some []).
Proof.
  intros (root' & ret & Hcall & Hmoved).
  vm_compute in Hcall. injection Hcall as <- _.
  vm_compute in Hmoved. discriminate.
Qed.

(** C7, amended.  [a >> b] appends to the children of [a] a copy of the whole
    subtree of [b], made by the copy constructor, leaves everything else of
    [a] as it was, and returns a reference to the newly appended, last child
    of [a], which is that copy.  Nothing is moved out of the source: [b]
    keeps its value and its children, and is unchanged unless [a] is [b]
    itself or a node inside [b], in which case [b] has grown by the copy
    (after [a >> a], [a] has a copy of its former self as last child). *)
Theorem shift_node_at_appends_copy (T : Type) (root na nb : node T)
    (a b : list nat) :
  load root a = Some na ->
  load root b = Some nb ->
  exists root',
    shift_node_at root a b
    = Some (root',
            Some {| addr := a ++ [length (children na)];
                    pointee := node_copy nb |})
    /\ node_copy nb = nb
    /\ load root' a
       = Some (Node (const_data na) (children na ++ [node_copy nb]))
    /\ load root' (a ++ [length (children na)]) = Some (node_copy nb)
    /\ (exists nb',
           load root' b = Some nb'
           /\ const_data nb' = const_data nb
           /\ length (children nb) <= length (children nb')
           /\ node_count nb <= node_count nb')
    /\ ((forall rel, a <> b ++ rel) -> load root' b = Some nb)
    /\ (a = b ->
        load root' b = Some (Node (const_data nb) (children nb ++ [nb]))).
Proof.
  intros Hla Hlb.
  destruct (store_load a
              (Node (const_data na) (children na ++ [node_copy nb])) root Hla)
    as (root' & Hstore & Hload' & Hcount).
  exists root'.
  assert (Hcall : shift_node_at root a b
                  = Some (root',
                          Some {| addr := a ++ [length (children na)];
                                  pointee := node_copy nb |})).
  { unfold shift_node_at. rewrite Hla, Hlb.
    unfold shift_node, push_back.
    cbn [parent_after returned children pointee addr const_data].
    now rewrite Hstore, back_last. }
  assert (Hnew : load root' (a ++ [length (children na)])
                 = Some (node_copy nb)).
  { rewrite load_app, Hload'. cbn [load children].
    rewrite nth_error_app2 by lia. now rewrite Nat.sub_diag. }
  assert (Hframe : (forall rel, a <> b ++ rel) -> load root' b = Some nb).
  { intros Hab. destruct (prefix_dec a b) as [[rel ->]|Hba].
    - destruct rel as [|j rel]; [now destruct (Hab []); rewrite !app_nil_r|].
      rewrite load_app, Hla in Hlb. rewrite load_app, Hload'.
      cbn [load children] in *.
      destruct (nth_error (children na) j) as [c|] eqn:Hj; [|discriminate].
      rewrite nth_error_app1 by (apply nth_error_Some; congruence).
      now rewrite Hj.
    - rewrite <- Hlb. now apply (@load_store_apart T a _ b root root' Hstore). }
  rewrite node_copy_id in *.
  repeat split; [exact Hcall | exact Hload' | exact Hnew | | exact Hframe |].
  - destruct (prefix_dec b a) as [[rel ->]|Hab].
    + destruct (@load_store_above T b rel _ root root' nb Hlb Hstore)
        as (nb' & Hnb' & Hlb').
      exists nb'. split; [exact Hlb'|].
      rewrite load_app, Hlb in Hla.
      destruct (store_load rel
                  (Node (const_data na) (children na ++ [nb])) nb Hla)
        as (nb'' & Hnb'' & _ & Hcount').
      rewrite Hnb' in Hnb''. injection Hnb'' as <-.
      rewrite node_count_app in Hcount'.
      replace (node_count (Node (const_data na) (children na)))
        with (node_count na) in Hcount' by (now destruct na).
      destruct rel as [|i rel].
      * injection Hla as <-. injection Hnb' as <-.
        cbn [const_data children]. rewrite length_app. cbn [length].
        repeat split; lia.
      * destruct (@store_shape T nb nb' _ i rel Hnb') as [Hdata Hlen].
        rewrite Hdata, Hlen. repeat split; lia.
    + exists nb. rewrite (Hframe Hab). repeat split; lia.
  - intros ->. rewrite Hla in Hlb. injection Hlb as ->. exact Hload'.
Qed.

Lemma shift_node_at_appends_copy_witness :
  exists root',
    shift_node_at Sample.two_objects [0] [1]
    = Some (root',
            Some {| addr := [0] ++ [length (children (Sample.leaf "A"%string))];
                    pointee := node_copy
                                 (Node "B"%string [Sample.leaf "D"%string]) |})
    /\ node_copy (Node "B"%string [Sample.leaf "D"%string])
       = Node "B"%string [Sample.leaf "D"%string]
    /\ load root' [0]
       = Some (Node (const_data (Sample.leaf "A"%string))
                 (children (Sample.leaf "A"%string)
                  ++ [node_copy (Node "B"%string [Sample.leaf "D"%string])]))
    /\ load root' ([0] ++ [length (children (Sample.leaf "A"%string))])
       = Some (node_copy (Node "B"%string [Sample.leaf "D"%string]))
    /\ (exists nb',
           load root' [1] = Some nb'
           /\ const_data nb'
              = const_data (Node "B"%string [Sample.leaf "D"%string])
           /\ length (children (Node "B"%string [Sample.leaf "D"%string]))
              <= length (children nb')
           /\ node_count (Node "B"%string [Sample.leaf "D"%string])
              <= node_count nb')
    /\ ((forall rel, [0] <> [1] ++ rel) ->
        load root' [1] = Some (Node "B"%string [Sample.leaf "D"%string]))
    /\ ([0] = [1] ->
        load root' [1]
        = Some (Node (const_data (Node "B"%string [Sample.leaf "D"%string]))
                  (children (Node "B"%string [Sample.leaf "D"%string])
                   ++ [Node "B"%string [Sample.leaf "D"%string]]))).
Proof.
  apply (@shift_node_at_appends_copy string Sample.two_objects
           (Sample.leaf "A"%string)
           (Node "B"%string [Sample.leaf "D"%string]) [0] [1]).
  - reflexivity.
  - reflexivity.
Defined.
